(** * Client-side upload orchestrator (src/hooks/use-file-upload.ts)

    A shallow embedding of the hook [useFileUpload] and of the module-level
    helpers it is built from, followed by the properties of the upload queue,
    the transfer executor, the worker pool and the result reconciler. *)

From Stdlib Require Import ZArith NArith QArith Qround Qabs Qpower Lia List Bool Ascii String.
From Stdlib Require Import DecimalString Sorted Lqa SpecFloat.
From stdpp Require Import base decidable option list gmap.

Local Open Scope Z_scope.

(** ** Strings

    A JavaScript string is its sequence of UTF-16 code units.  [lit] embeds an
    ASCII literal of the source. *)

Abbreviation jsstring := (list N).

Definition lit (s : string) : jsstring :=
  List.map N_of_ascii (list_ascii_of_string s).

(** [`${n}`] for a non-negative integer [n]. *)
Definition decimal (n : N) : jsstring :=
  lit (NilZero.string_of_uint (N.to_uint n)).

(** [s.startsWith(p)] *)
Fixpoint startsWith (s p : jsstring) : bool :=
  match p, s with
  | [], _ => true
  | c :: p', d :: s' => bool_decide (c = d) && startsWith s' p'
  | _ :: _, [] => false
  end.

(** WhiteSpace and LineTerminator code units, the ones [String.prototype.trim]
    strips. *)
Definition isWhiteSpace (c : N) : bool :=
  existsb (N.eqb c)
    [9; 10; 11; 12; 13; 32; 160; 5760; 8192; 8193; 8194; 8195; 8196; 8197;
     8198; 8199; 8200; 8201; 8202; 8232; 8233; 8239; 8287; 12288; 65279]%N.

Fixpoint trimStart (s : jsstring) : jsstring :=
  match s with
  | c :: s' => if isWhiteSpace c then trimStart s' else s
  | [] => []
  end.

Definition trim (s : jsstring) : jsstring :=
  rev (trimStart (rev (trimStart s))).

(** [parts.join(sep)] *)
Fixpoint join (sep : jsstring) (parts : list jsstring) : jsstring :=
  match parts with
  | [] => []
  | [p] => p
  | p :: rest => p ++ sep ++ join sep rest
  end.

(** [x || fallback] on strings: the empty string is falsy. *)
Definition orElse (x fallback : jsstring) : jsstring :=
  match x with [] => fallback | _ :: _ => x end.

(** Truthiness of a [string | null] value. *)
Definition truthy (x : option jsstring) : bool :=
  match x with Some (_ :: _) => true | _ => false end.

(** ** JSON values, as [response.json()] yields them *)

#[local] Unset Elimination Schemes.
Inductive Json : Type :=
  | JNull
  | JBool (b : bool)
  | JNumber (n : Z)
  | JString (s : jsstring)
  | JArray (elements : list Json)
  | JObject (fields : list (jsstring * Json)).
#[local] Set Elimination Schemes.

(** Values a [catch] clause can receive: an [Error] instance with its
    message, or any other thrown value. *)
Inductive Thrown : Type :=
  | ErrorObject (message : jsstring)
  | NotAnError.

(** [data[key]] for a key that is no built-in property: [inl] when the access
    throws (on [null]), [inr None] for [undefined].  When a key is repeated
    the last binding is the object's property, as [JSON.parse] has it. *)
Definition getField (data : Json) (key : jsstring) : Thrown + option Json :=
  match data with
  | JNull => inl (ErrorObject (lit "Cannot read properties of null"))
  | JObject fields =>
      inr (snd <$> List.find (fun kv => bool_decide (fst kv = key)) (rev fields))
  | _ => inr None
  end.

(** ** Data model *)

Inductive UploadStatus : Type := queued | signing | uploading | success | error.

#[global] Instance UploadStatus_eq_dec : EqDecision UploadStatus.
Proof. solve_decision. Defined.

Module File.
(** The part of a [File] the hook reads.  [stream] is [None] when the
    runtime has no [File.prototype.stream]; otherwise it holds the byte
    lengths of the chunks the file's reader delivers, in order. *)
Record t : Type := mk
  { name : jsstring;
    type : jsstring;
    size : N;
    stream : option (list N) }.
End File.

Module UploadItem.
Record t : Type := mk
  { id : jsstring;
    file : File.t;
    previewUrl : option jsstring;
    progress : Z;
    status : UploadStatus;
    error : option jsstring;
    publicUrl : option jsstring;
    objectName : option jsstring }.
End UploadItem.

Module UploadedFile.
Record t : Type := mk
  { objectName : jsstring;
    publicUrl : jsstring;
    fileName : jsstring;
    contentType : jsstring;
    size : N }.
End UploadedFile.

(** src/types/upload.ts *)
Module UploadSignResponse.
Record t : Type := mk
  { uploadUrl : jsstring;
    headers : list (jsstring * jsstring);
    objectName : jsstring;
    publicUrl : jsstring;
    expiresAt : jsstring }.
End UploadSignResponse.

Definition DEFAULT_CONTENT_TYPE : jsstring := lit "application/octet-stream".
Definition DEFAULT_AUTH_STUB_HEADER : jsstring := lit "demo-user-123".
Definition DEFAULT_MAX_PARALLEL_UPLOADS : Z := 3.

(** ** Upload queue store: the keyed-update primitive and its transforms *)

(** [current.map((item) => (item.id === id ? updater(item) : item))] *)
Definition updateItem (id : jsstring) (updater : UploadItem.t -> UploadItem.t)
    (current : list UploadItem.t) : list UploadItem.t :=
  List.map
    (fun item => if decide (UploadItem.id item = id) then updater item else item)
    current.

(** The five updaters of [uploadSingle], in source order. *)
Definition toSigning (current : UploadItem.t) : UploadItem.t :=
  {| UploadItem.id := UploadItem.id current;
     UploadItem.file := UploadItem.file current;
     UploadItem.previewUrl := UploadItem.previewUrl current;
     UploadItem.progress := Z.max (UploadItem.progress current) 5;
     UploadItem.status := signing;
     UploadItem.error := None;
     UploadItem.publicUrl := UploadItem.publicUrl current;
     UploadItem.objectName := UploadItem.objectName current |}.

Definition toUploading (signed : UploadSignResponse.t) (current : UploadItem.t)
    : UploadItem.t :=
  {| UploadItem.id := UploadItem.id current;
     UploadItem.file := UploadItem.file current;
     UploadItem.previewUrl := UploadItem.previewUrl current;
     UploadItem.progress := Z.max (UploadItem.progress current) 10;
     UploadItem.status := uploading;
     UploadItem.error := UploadItem.error current;
     UploadItem.publicUrl := Some (UploadSignResponse.publicUrl signed);
     UploadItem.objectName := Some (UploadSignResponse.objectName signed) |}.

Definition toProgress (progress : Z) (current : UploadItem.t) : UploadItem.t :=
  {| UploadItem.id := UploadItem.id current;
     UploadItem.file := UploadItem.file current;
     UploadItem.previewUrl := UploadItem.previewUrl current;
     UploadItem.progress := progress;
     UploadItem.status := uploading;
     UploadItem.error := UploadItem.error current;
     UploadItem.publicUrl := UploadItem.publicUrl current;
     UploadItem.objectName := UploadItem.objectName current |}.

Definition toSuccess (signed : UploadSignResponse.t) (current : UploadItem.t)
    : UploadItem.t :=
  {| UploadItem.id := UploadItem.id current;
     UploadItem.file := UploadItem.file current;
     UploadItem.previewUrl := UploadItem.previewUrl current;
     UploadItem.progress := 100;
     UploadItem.status := success;
     UploadItem.error := None;
     UploadItem.publicUrl := Some (UploadSignResponse.publicUrl signed);
     UploadItem.objectName := Some (UploadSignResponse.objectName signed) |}.

Definition toError (message : jsstring) (current : UploadItem.t) : UploadItem.t :=
  {| UploadItem.id := UploadItem.id current;
     UploadItem.file := UploadItem.file current;
     UploadItem.previewUrl := UploadItem.previewUrl current;
     UploadItem.progress := UploadItem.progress current;
     UploadItem.status := error;
     UploadItem.error := Some message;
     UploadItem.publicUrl := UploadItem.publicUrl current;
     UploadItem.objectName := UploadItem.objectName current |}.

(** ** Numbers

    A JavaScript number is an IEEE 754 binary64 value.  The finite ones are
    rationals, and an arithmetic operation is the exact operation followed by
    rounding to the nearest representable value, ties to the even
    significand.  No quantity of this file reaches the overflow threshold
    [2^1024], so infinities are left out. *)

Definition two : Q := 2 # 1.

(** [floor (log2 q)] for [q > 0]. *)
Definition ilog2 (q : Q) : Z :=
  let k := (Z.log2 (Qnum q) - Z.log2 (Zpos (Qden q)))%Z in
  if Qle_bool (two ^ k) q then k else (k - 1)%Z.

(** Nearest integer, ties to even. *)
Definition roundHalfEven (q : Q) : Z :=
  let f := Qfloor q in
  match (q - inject_Z f ?= 1 # 2)%Q with
  | Lt => f
  | Gt => (f + 1)%Z
  | Eq => if Z.even f then f else (f + 1)%Z
  end.

(** Exponent of the unit in the last place of the binary64 format at
    magnitude [q]: 53 significant bits, subnormals from [2^-1074]. *)
Definition ulpExponent (q : Q) : Z := Z.max (ilog2 q - 52) (-1074).

Definition roundDouble (q : Q) : Q :=
  if Qeq_bool q 0 then 0%Q
  else
    let e := ulpExponent (Qabs q) in
    (inject_Z (roundHalfEven (q / two ^ e)) * two ^ e)%Q.

Definition fadd (x y : Q) : Q := roundDouble (x + y).
Definition fmul (x y : Q) : Q := roundDouble (x * y).
Definition fdiv (x y : Q) : Q := roundDouble (x / y).

(** [Math.round]: the nearest integer, ties towards +infinity. *)
Definition Math_round (x : Q) : Z := Qfloor (x + (1 # 2)).

(** An unsigned integer attribute of the platform ([File.size],
    [byteLength]) read as a number; the number is the integer itself, such
    attributes being below [2^53]. *)
Definition toNumber (n : N) : Q := inject_Z (Z.of_N n).

(** ** The network and the asynchronous functions

    One invocation of the per-item pipeline talks to the grant endpoint and
    to the object store.  [Network] holds what they answer: [grant n] to the
    [n]-th POST of the invocation, [put n] to its [n]-th PUT. *)

Record Response : Type := mkResponse
  { status : N;
    statusText : jsstring;
    json : option Json  (* [None]: [response.json()] rejects *) }.

(** [response.ok] *)
Definition ok (status : N) : bool := (200 <=? status)%N && (status <=? 299)%N.

(** The grant endpoint's answer, split on [response.ok]; the body of an ok
    answer is read at the type the source casts it to. *)
Inductive GrantReply : Type :=
  | GrantRejects (reason : Thrown)
  | GrantOk (body : Thrown + UploadSignResponse.t)
  | GrantNotOk (response : Response).

Inductive PutResult : Type :=
  | PutRejects (reason : Thrown)
  | PutResponds (status : N).

(** [pulls] is how many times the runtime pulls a stream body before the
    request settles; a [File] body is not pulled. *)
Record PutReply : Type := mkPutReply
  { pulls : nat;
    result : PutResult }.

Record Network : Type := mkNetwork
  { grant : nat -> GrantReply;
    put : nat -> PutReply }.

Inductive PutBody : Type := StreamBody | FileBody.

(** What an invocation does to the outside, in order. *)
Inductive Action : Type :=
  | PostSign (fileName contentType authStubHeader : jsstring)
  | Put (body : PutBody)
  | Update (id : jsstring) (updater : UploadItem.t -> UploadItem.t).

Definition isPostSign (a : Action) : bool :=
  match a with PostSign _ _ _ => true | _ => false end.
Definition isPut (a : Action) : bool :=
  match a with Put _ => true | _ => false end.

(** An asynchronous computation: it reads the network, extends the log of
    its actions and either throws or returns. *)
Definition Async (A : Type) : Type :=
  Network -> list Action -> (Thrown + A) * list Action.

Definition ret {A} (a : A) : Async A := fun _ log => (inr a, log).

Definition throw {A} (e : Thrown) : Async A := fun _ log => (inl e, log).

Definition bind {A B} (m : Async A) (k : A -> Async B) : Async B :=
  fun net log =>
    match m net log with
    | (inl e, log') => (inl e, log')
    | (inr a, log') => k a net log'
    end.

(** [try { body } catch (e) { handler }] *)
Definition tryCatch {A} (body : Async A) (handler : Thrown -> Async A) : Async A :=
  fun net log =>
    match body net log with
    | (inl e, log') => handler e net log'
    | (inr a, log') => (inr a, log')
    end.

(** The outcome of [body] as a value: what [try] hands to the code after it. *)
Definition attempt {A} (body : Async A) : Async (Thrown + A) :=
  fun net log =>
    match body net log with
    | (r, log') => (inr r, log')
    end.

Definition perform (a : Action) : Async unit := fun _ log => (inr tt, log ++ [a]).

Notation "'await' x ':=' m 'in' k" := (bind m (fun x => k))
  (at level 10, x name, m at level 100, k at level 200, only parsing).
Notation "'await_' m 'in' k" := (bind m (fun _ => k))
  (at level 10, m at level 100, k at level 200, only parsing).

(** [fetch("/api/upload/sign", ...)] *)
Definition fetchSign (fileName contentType authStubHeader : jsstring)
    : Async GrantReply :=
  fun net log =>
    let n := length (List.filter isPostSign log) in
    let log' := log ++ [PostSign fileName contentType authStubHeader] in
    match grant net n with
    | GrantRejects reason => (inl reason, log')
    | reply => (inr reply, log')
    end.

(** The runtime reading a [ReadableStream] whose underlying source is
    [pull] with state [st]: it pulls until the source closes the stream or
    the request settles. *)
Fixpoint drain {S} (pulls : nat) (pull : S -> Async (option S)) (st : S)
    : Async unit :=
  match pulls with
  | O => ret tt
  | Datatypes.S n =>
      await r := pull st in
      match r with
      | None => ret tt
      | Some st' => drain n pull st'
      end
  end.

(** [fetch(signed.uploadUrl, { method, headers, body })]: the answer is the
    response's status. *)
Definition fetchPut {S} (body : PutBody) (pull : S -> Async (option S)) (st : S)
    : Async N :=
  fun net log =>
    let reply := put net (length (List.filter isPut log)) in
    let '(_, log') :=
      match body with
      | StreamBody => drain (pulls reply) pull st net (log ++ [Put body])
      | FileBody => (inr tt, log ++ [Put body])
      end in
    match result reply with
    | PutRejects reason => (inl reason, log')
    | PutResponds status => (inr status, log')
    end.

Definition noPull : unit -> Async (option unit) := fun _ => ret None.

(** [readApiError] *)
Definition readApiError (response : Response) : jsstring :=
  let synthesized :=
    lit "Request failed with " ++ decimal (status response) ++ lit " " ++
    statusText response in
  match json response with
  | None => synthesized
  | Some data =>
      match getField data (lit "error") with
      | inr (Some (JString message)) =>
          if (0 <? length (trim message))%nat then message else synthesized
      | _ => synthesized
      end
  end.

(** [requestSignedUrl] *)
Definition requestSignedUrl (file : File.t) (authStubHeader : jsstring)
    : Async UploadSignResponse.t :=
  await response :=
    fetchSign (File.name file) (orElse (File.type file) DEFAULT_CONTENT_TYPE)
      authStubHeader in
  match response with
  | GrantRejects reason => throw reason
  | GrantNotOk response => throw (ErrorObject (readApiError response))
  | GrantOk (inl reason) => throw reason
  | GrantOk (inr signed) => ret signed
  end.

(** The [pull] of [trackedBody]; its state is the reader's remaining chunks
    and [uploadedBytes]. *)
Definition trackedBody_pull (size : N) (onProgress : Z -> Async unit)
    (st : list N * Q) : Async (option (list N * Q)) :=
  let '(reader, uploadedBytes) := st in
  match reader with
  | [] => ret None
  | value :: reader' =>
      let uploadedBytes := fadd uploadedBytes (toNumber value) in
      let percent :=
        Z.min 99
          (Z.max 1 (Math_round (fmul (fdiv uploadedBytes (toNumber size))
                                      (inject_Z 100)))) in
      await_ onProgress percent in
      ret (Some (reader', uploadedBytes))
  end.

Definition transferError (status : N) : Thrown :=
  ErrorObject (lit "GCS upload failed with " ++ decimal status).

(** The whole-file PUT, written twice in the source. *)
Definition bufferedPut (onProgress : Z -> Async unit) : Async unit :=
  await fallbackResponse := fetchPut FileBody noPull tt in
  if negb (ok fallbackResponse) then throw (transferError fallbackResponse)
  else onProgress 100.

(** [uploadFileDirectToGcs].  The first branch of the source, taken when
    [file.size === 0 || typeof file.stream !== "function"], is the last case
    here.  The URL, the method and the headers of the requests play no part
    in what follows and are not recorded. *)
Definition uploadFileDirectToGcs (file : File.t) (signed : UploadSignResponse.t)
    (onProgress : Z -> Async unit) : Async unit :=
  match (File.size file =? 0)%N, File.stream file with
  | false, Some chunks =>
      await r :=
        attempt (fetchPut StreamBody
                   (trackedBody_pull (File.size file) onProgress)
                   (chunks, 0%Q)) in
      match r with
      | inl _ => bufferedPut onProgress
      | inr response =>
          if negb (ok response) then throw (transferError response)
          else onProgress 100
      end
  | _, _ => bufferedPut onProgress
  end.

(** ** The hook: per-item pipeline *)

(** [updateItem(id, updater)] as an action of the pipeline; the store applies
    it with [updateItem] when it processes the update. *)
Definition setItem (id : jsstring) (updater : UploadItem.t -> UploadItem.t)
    : Async unit :=
  perform (Update id updater).

(** [error instanceof Error ? error.message : "Upload failed"] *)
Definition messageOf (e : Thrown) : jsstring :=
  match e with
  | ErrorObject message => message
  | NotAnError => lit "Upload failed"
  end.

(** The progress callback [uploadSingle] hands to the transfer. *)
Definition reportProgress (id : jsstring) (progress : Z) : Async unit :=
  setItem id (toProgress progress).

(** The [try] block of [uploadSingle]. *)
Definition uploadSingle_try (authStubHeader : jsstring) (item : UploadItem.t)
    : Async unit :=
  await signed := requestSignedUrl (UploadItem.file item) authStubHeader in
  await_ setItem (UploadItem.id item) (toUploading signed) in
  await_ uploadFileDirectToGcs (UploadItem.file item) signed
           (reportProgress (UploadItem.id item)) in
  setItem (UploadItem.id item) (toSuccess signed).

(** [uploadSingle] *)
Definition uploadSingle (authStubHeader : jsstring) (item : UploadItem.t)
    : Async unit :=
  await_ setItem (UploadItem.id item) toSigning in
  tryCatch (uploadSingle_try authStubHeader item)
    (fun e => setItem (UploadItem.id item) (toError (messageOf e))).

(** ** The hook: queue store

    [items] is the React state, [previewMap] the [previewMapRef] map, and
    [revoked] the arguments of the [URL.revokeObjectURL] calls made so far. *)

Record Store : Type := mkStore
  { items : list UploadItem.t;
    previewMap : gmap (list N) (list N);
    revoked : list jsstring }.

(** What the platform supplies for one added file: the file, the value
    [createUploadId()] returns for it, and the identifier of the object URL
    [URL.createObjectURL] would mint for it. *)
Record Added : Type := mkAdded
  { addedFile : File.t;
    uploadId : jsstring;
    blobId : jsstring }.

(** [URL.createObjectURL(file)] *)
Definition createObjectURL (a : Added) : jsstring := lit "blob:" ++ blobId a.

(** The callback of [files.map] in [addFiles]: the new item. *)
Definition newItem (a : Added) : UploadItem.t :=
  {| UploadItem.id := uploadId a;
     UploadItem.file := addedFile a;
     UploadItem.previewUrl :=
       if startsWith (File.type (addedFile a)) (lit "image/")
       then Some (createObjectURL a) else None;
     UploadItem.progress := 0;
     UploadItem.status := queued;
     UploadItem.error := None;
     UploadItem.publicUrl := None;
     UploadItem.objectName := None |}.

(** ... and its effect on [previewMapRef]. *)
Definition registerPreview (m : gmap (list N) (list N)) (item : UploadItem.t)
    : gmap (list N) (list N) :=
  match UploadItem.previewUrl item with
  | Some (c :: url) => <[UploadItem.id item := c :: url]> m
  | _ => m
  end.

(** [addFiles], up to the start of the uploads. *)
Definition addFiles (inputFiles : list Added) (s : Store) : Store :=
  match inputFiles with
  | [] => s
  | _ :: _ =>
      let newItems := List.map newItem inputFiles in
      {| items := newItems ++ items s;
         previewMap := fold_left registerPreview newItems (previewMap s);
         revoked := revoked s |}
  end.

(** [removeItem] *)
Definition removeItem (id : jsstring) (s : Store) : Store :=
  let current := items s in
  let match_ := List.find (fun item => bool_decide (UploadItem.id item = id)) current in
  let nextItems :=
    List.filter (fun item => negb (bool_decide (UploadItem.id item = id))) current in
  match match_ with
  | Some {| UploadItem.previewUrl := Some (c :: url) |} =>
      {| items := nextItems;
         previewMap := delete id (previewMap s);
         revoked := revoked s ++ [c :: url] |}
  | _ =>
      {| items := nextItems;
         previewMap := previewMap s;
         revoked := revoked s |}
  end.

Definition isFinished (item : UploadItem.t) : bool :=
  bool_decide (UploadItem.status item = success)
  || bool_decide (UploadItem.status item = error).

(** The body of the [for] loop of [clearFinished], on the map and the log of
    revocations. *)
Definition releaseFinished (acc : gmap (list N) (list N) * list jsstring)
    (item : UploadItem.t) : gmap (list N) (list N) * list jsstring :=
  if isFinished item && truthy (UploadItem.previewUrl item) then
    (delete (UploadItem.id item) (fst acc),
     snd acc ++ [default [] (UploadItem.previewUrl item)])
  else acc.

(** [clearFinished] *)
Definition clearFinished (s : Store) : Store :=
  let current := items s in
  let nextItems :=
    List.filter
      (fun item =>
         negb (bool_decide (UploadItem.status item = success))
         && negb (bool_decide (UploadItem.status item = error)))
      current in
  let '(map', revoked') :=
    fold_left releaseFinished current (previewMap s, revoked s) in
  {| items := nextItems; previewMap := map'; revoked := revoked' |}.

(** ** The hook: result reconciler *)

(** The predicate of the [filter] in [uploadedFiles]. *)
Definition isUploaded (item : UploadItem.t) : bool :=
  bool_decide (UploadItem.status item = success)
  && bool_decide (is_Some (UploadItem.publicUrl item))
  && bool_decide (is_Some (UploadItem.objectName item)).

(** The callback of the [map] in [uploadedFiles]; after the filter both
    optional fields are strings. *)
Definition toUploadedFile (item : UploadItem.t) : UploadedFile.t :=
  {| UploadedFile.objectName := default [] (UploadItem.objectName item);
     UploadedFile.publicUrl := default [] (UploadItem.publicUrl item);
     UploadedFile.fileName := File.name (UploadItem.file item);
     UploadedFile.contentType :=
       orElse (File.type (UploadItem.file item)) DEFAULT_CONTENT_TYPE;
     UploadedFile.size := File.size (UploadItem.file item) |}.

Definition uploadedFiles (items : list UploadItem.t) : list UploadedFile.t :=
  List.map toUploadedFile (List.filter isUploaded items).

Definition uploadedSignature (uploadedFiles : list UploadedFile.t) : jsstring :=
  join (lit "::") (List.map UploadedFile.objectName uploadedFiles).

(** [uploadedSignatureRef] and the calls of [onUploadedFilesChange] made so
    far, each with its argument. *)
Record Reconciler : Type := mkReconciler
  { uploadedSignatureRef : jsstring;
    notifications : list (list UploadedFile.t) }.

Definition initialReconciler : Reconciler :=
  {| uploadedSignatureRef := []; notifications := [] |}.

(** The effect that follows a render with queue [items];
    [onUploadedFilesChange] tells whether the option is set. *)
Definition reconcile (onUploadedFilesChange : bool) (items : list UploadItem.t)
    (r : Reconciler) : Reconciler :=
  if negb onUploadedFilesChange then r
  else if bool_decide (uploadedSignatureRef r = uploadedSignature (uploadedFiles items))
  then r
  else
    {| uploadedSignatureRef := uploadedSignature (uploadedFiles items);
       notifications := notifications r ++ [uploadedFiles items] |}.


(** ** The queue under concurrent invocations

    Every added file starts one invocation of [uploadSingle]; what is left of
    its actions is a task.  The updates of different tasks and the user's
    operations reach the store in any order. *)

Record Task : Type := mkTask
  { subject : jsstring;
    pending : list Action }.

Record System : Type := mkSystem
  { store : Store;
    tasks : list Task }.

Inductive Event : Type :=
  | AddFiles (inputFiles : list (Added * Network))
  | Advance (task : nat)
  | RemoveItem (id : jsstring)
  | ClearFinished.

Definition initialSystem : System :=
  {| store := {| items := []; previewMap := ∅; revoked := [] |}; tasks := [] |}.

(** The store processing one action of a task. *)
Definition processAction (a : Action) (s : Store) : Store :=
  match a with
  | Update id updater =>
      {| items := updateItem id updater (items s);
         previewMap := previewMap s;
         revoked := revoked s |}
  | _ => s
  end.

Section Hook.
Variable authStubHeader : jsstring.

Definition spawn (a : Added * Network) : Task :=
  {| subject := uploadId (fst a);
     pending := snd (uploadSingle authStubHeader (newItem (fst a)) (snd a) []) |}.

(** [createUploadId] never returns a value it returned before: an
    [AddFiles] whose identifiers are not new does not occur. *)
Definition freshIds (inputFiles : list (Added * Network)) (sys : System) : Prop :=
  NoDup (List.map (fun a => uploadId (fst a)) inputFiles)
  /\ Forall (fun a => uploadId (fst a) ∉ List.map subject (tasks sys)) inputFiles.

Definition step (e : Event) (sys : System) : option System :=
  match e with
  | AddFiles inputFiles =>
      if decide (freshIds inputFiles sys) then
        Some {| store := addFiles (List.map fst inputFiles) (store sys);
                tasks := tasks sys ++ List.map spawn inputFiles |}
      else None
  | Advance i =>
      match tasks sys !! i with
      | Some {| subject := o; pending := a :: rest |} =>
          Some {| store := processAction a (store sys);
                  tasks := <[i := {| subject := o; pending := rest |}]> (tasks sys) |}
      | _ => None
      end
  | RemoveItem id =>
      Some {| store := removeItem id (store sys); tasks := tasks sys |}
  | ClearFinished =>
      Some {| store := clearFinished (store sys); tasks := tasks sys |}
  end.

Fixpoint run (events : list Event) (sys : System) : option System :=
  match events with
  | [] => Some sys
  | e :: events' =>
      match step e sys with
      | Some sys' => run events' sys'
      | None => None
      end
  end.

Definition reachable (sys : System) : Prop :=
  exists events, run events initialSystem = Some sys.
End Hook.

(** ** Worker pool: [runUploadWorkers]

    An entry is [None] where the array holds [undefined]. *)

Inductive Thread : Type :=
  | Ready
  | Awaiting (index : nat)
  | Done.

#[global] Instance Thread_eq_dec : EqDecision Thread.
Proof. solve_decision. Defined.

(** [nextIndex], the state of each of the async functions that
    [Array.from] starts, and three records of what happened: who claimed
    which index, for which indices [worker] was called, and which of these
    calls have completed. *)
Record Pool : Type := mkPool
  { nextIndex : nat;
    threads : list Thread;
    claims : list (nat * nat);
    invoked : list nat;
    settled : list nat }.

Definition workerCount (concurrency : Z) (length : nat) : nat :=
  Z.to_nat (Z.max 1 (Z.min concurrency (Z.of_nat length))).

Section Pool.
Context {T : Type}.
Variable entries : list (option T).
Variable concurrency : Z.

Definition initialPool : Pool :=
  {| nextIndex := 0;
     threads := replicate (workerCount concurrency (length entries)) Ready;
     claims := [];
     invoked := [];
     settled := [] |}.

(** The [while] loop of thread [w] from its condition to the next [await]
    or to its end; [rest] is [entries] from [nextIndex] on. *)
Fixpoint whileLoop (w : nat) (rest : list (option T)) (p : Pool) : Pool :=
  match rest with
  | [] =>
      {| nextIndex := nextIndex p;
         threads := <[w := Done]> (threads p);
         claims := claims p;
         invoked := invoked p;
         settled := settled p |}
  | current :: rest' =>
      let claimed :=
        {| nextIndex := nextIndex p + 1;
           threads := threads p;
           claims := claims p ++ [(w, nextIndex p)];
           invoked := invoked p;
           settled := settled p |} in
      match current with
      | None => whileLoop w rest' claimed
      | Some _ =>
          {| nextIndex := nextIndex claimed;
             threads := <[w := Awaiting (nextIndex p)]> (threads p);
             claims := claims claimed;
             invoked := invoked p ++ [nextIndex p];
             settled := settled p |}
      end
  end.

(** Thread [w] runs: it starts, or the promise of [worker] it awaits has
    fulfilled, as the promise of [uploadSingle], the hook's worker, always
    does. *)
Definition resume (w : nat) (p : Pool) : option Pool :=
  match threads p !! w with
  | Some Ready => Some (whileLoop w (drop (nextIndex p) entries) p)
  | Some (Awaiting index) =>
      Some (whileLoop w (drop (nextIndex p) entries)
              {| nextIndex := nextIndex p;
                 threads := threads p;
                 claims := claims p;
                 invoked := invoked p;
                 settled := settled p ++ [index] |})
  | Some Done | None => None
  end.

Fixpoint schedule (ws : list nat) (p : Pool) : option Pool :=
  match ws with
  | [] => Some p
  | w :: ws' =>
      match resume w p with
      | Some p' => schedule ws' p'
      | None => None
      end
  end.


(** The entry at index [i] is there and is not [undefined]. *)
Definition definedAt (i : nat) : bool :=
  match entries !! i with Some (Some _) => true | _ => false end.

(** The cost of finishing: one for each thread still to return, one for
    each index still to claim. *)
Definition weight (t : Thread) : nat :=
  match t with Done => 0 | _ => 1 end.

Definition remaining (p : Pool) : nat :=
  list_sum (List.map weight (threads p)) + (length entries - nextIndex p).

(** What holds of the pool whatever the threads have done so far. *)
Record poolInvariant (p : Pool) : Prop := mkPoolInvariant
  { pool_threads : length (threads p) = workerCount concurrency (length entries);
    pool_cursor : (nextIndex p <= length entries)%nat;
    pool_claims : List.map snd (claims p) = seq 0 (nextIndex p);
    pool_claimers : Forall (fun c => (fst c < length (threads p))%nat) (claims p);
    pool_invoked : invoked p = List.filter definedAt (seq 0 (nextIndex p));
    pool_settled :
      forall i, In i (invoked p) -> In i (settled p) \/ In (Awaiting i) (threads p);
    pool_done :
      In Done (threads p) -> nextIndex p = length entries }.
End Pool.

(** ** Notions the statements use *)

(** The percentage the specification gives for [countedBytes] of
    [totalBytes], in the arithmetic of numbers. *)
Definition percentOf (countedBytes : Q) (totalBytes : N) : Z :=
  Z.min 99
    (Z.max 1 (Math_round (fmul (fdiv countedBytes (toNumber totalBytes))
                                (inject_Z 100)))).

(** The values [uploadedBytes] takes, chunk after chunk. *)
Fixpoint countedBytes (uploadedBytes : Q) (chunks : list N) : list Q :=
  match chunks with
  | [] => []
  | value :: rest =>
      fadd uploadedBytes (toNumber value)
        :: countedBytes (fadd uploadedBytes (toNumber value)) rest
  end.

(** The running sum of the chunk lengths, from [start]. *)
Fixpoint runningTotals (start : N) (chunks : list N) : list N :=
  match chunks with
  | [] => []
  | value :: rest => (start + value)%N :: runningTotals (start + value)%N rest
  end.

Definition totalLength (chunks : list N) : N := fold_right N.add 0%N chunks.

(** The actions of the streamed request: the PUT, then one progress update
    per chunk the runtime pulled. *)
Definition streamedActions (id : jsstring) (size : N) (count : nat)
    (chunks : list N) : list Action :=
  Put StreamBody
    :: List.map (fun c => Update id (toProgress (percentOf c size)))
         (countedBytes 0%Q (take count chunks)).

(** The [for] loop of [clearFinished], as it acts on the log of revocations
    and on the map. *)
Definition releasedUrls (current : list UploadItem.t) : list jsstring :=
  List.map (fun item => default [] (UploadItem.previewUrl item))
    (List.filter
       (fun item => isFinished item && truthy (UploadItem.previewUrl item))
       current).

(** The effect of one action on one item of the queue. *)
Definition actOn (a : Action) (item : UploadItem.t) : UploadItem.t :=
  match a with
  | Update id updater =>
      if decide (UploadItem.id item = id) then updater item else item
  | _ => item
  end.

(** Progress 100 is held only by an item that is uploading or done. *)
Definition fullOnlyWhenDone (item : UploadItem.t) : Prop :=
  UploadItem.progress item = 100 ->
  UploadItem.status item = uploading \/ UploadItem.status item = success.

(** Whatever prefix of [acts] has taken place, the item is fine. *)
Definition safe (acts : list Action) (item : UploadItem.t) : Prop :=
  forall k, fullOnlyWhenDone (fold_left (fun it a => actOn a it) (take k acts) item).

(** An action of the invocation that works on the item [owner]: it
    addresses no other item and keeps the identifier. *)
Definition ownAction (owner : jsstring) (a : Action) : Prop :=
  match a with
  | Update id updater =>
      id = owner /\ forall item, UploadItem.id (updater item) = UploadItem.id item
  | _ => True
  end.

(** An action that leaves an unfinished progress unfinished. *)
Definition lowAction (a : Action) : Prop :=
  match a with
  | Update _ updater =>
      forall item, UploadItem.progress item < 100 ->
                   UploadItem.progress (updater item) < 100
  | _ => True
  end.

(** The two updates that end a successful invocation. *)
Definition finale (id : jsstring) (signed : UploadSignResponse.t) : list Action :=
  [Update id (toProgress 100); Update id (toSuccess signed)].

(** Every task works on its own item only, no two tasks on the same one,
    and the task of each item of the queue keeps it fine. *)
Record invariant (sys : System) : Prop := mkInvariant
  { inv_subjects : NoDup (List.map subject (tasks sys));
    inv_own : Forall (fun t => Forall (ownAction (subject t)) (pending t)) (tasks sys);
    inv_safe :
      forall item, In item (items (store sys)) ->
        exists t, In t (tasks sys)
                  /\ subject t = UploadItem.id item
                  /\ safe (pending t) item }.

(** The effects that follow a sequence of renders, the option being set. *)
Definition reconcileAll (renders : list (list UploadItem.t)) (r : Reconciler)
    : Reconciler :=
  fold_left (fun acc items => reconcile true items acc) renders r.

(** ** Scenarios *)

Definition sampleSigned : UploadSignResponse.t :=
  {| UploadSignResponse.uploadUrl := lit "https://storage.googleapis.com/b/o?sig";
     UploadSignResponse.headers := [(lit "Content-Type", lit "image/png")];
     UploadSignResponse.objectName := lit "uploads/u1/x-a.png";
     UploadSignResponse.publicUrl := lit "https://storage.googleapis.com/b/uploads/u1/x-a.png";
     UploadSignResponse.expiresAt := lit "2026-01-01T00:15:00.000Z" |}.

(** A ten-byte image whose reader delivers chunks of 3, 3 and 4 bytes. *)
Definition samplePng : File.t :=
  {| File.name := lit "a.png";
     File.type := lit "image/png";
     File.size := 10;
     File.stream := Some [3; 3; 4]%N |}.

Definition emptyFile : File.t :=
  {| File.name := lit "empty.txt";
     File.type := lit "text/plain";
     File.size := 0;
     File.stream := Some [] |}.

(** A network that gives every grant request the answer [g] and answers the
    PUTs with [puts], in order. *)
Definition network (g : GrantReply) (puts : list PutReply) : Network :=
  {| grant := fun _ => g;
     put := fun n => nth n puts {| pulls := 0; result := PutRejects NotAnError |} |}.

Definition unauthorized : Response :=
  {| status := 401;
     statusText := lit "Unauthorized";
     json := Some (JObject [(lit "error",
                             JString (lit "Missing authentication context"))]) |}.

(** A refusal whose [error] field is a single space. *)
Definition blankError : Response :=
  {| status := 401;
     statusText := lit "Unauthorized";
     json := Some (JObject [(lit "error", JString (lit " "))]) |}.

Definition addedPng : Added :=
  {| addedFile := samplePng; uploadId := lit "id-1"; blobId := lit "b-1" |}.

Definition addedEmpty : Added :=
  {| addedFile := emptyFile; uploadId := lit "id-2"; blobId := lit "b-2" |}.

(** The empty file is granted and stored; five actions of its invocation
    have taken place: up to and including the update of [onProgress(100)]. *)
Definition beforeSuccess : list Event :=
  [AddFiles [(addedEmpty,
              network (GrantOk (inr sampleSigned))
                [{| pulls := 0; result := PutResponds 200 |}])];
   Advance 0; Advance 0; Advance 0; Advance 0; Advance 0]%nat.

(** Three entries, the second undefined, and two threads that take turns. *)
Definition sampleEntries : list (option nat) := [Some 7; None; Some 9]%nat.

Definition samplePool : Pool :=
  {| nextIndex := 3;
     threads := [Done; Done];
     claims := [(0, 0); (1, 1); (1, 2)]%nat;
     invoked := [0; 2]%nat;
     settled := [0; 2]%nat |}.

(** A queue with an uploaded image and a file at 40%, and the same queue
    with the file at 41%. *)
Definition sampleQueue : list UploadItem.t :=
  [toProgress 40 (toUploading sampleSigned (toSigning (newItem addedEmpty)));
   toSuccess sampleSigned (newItem addedPng)].

(** ** The binary64 operations of the Standard Library

    [SpecFloat] specifies IEEE 754 arithmetic on sign, significand and
    exponent; [ieeePercent] is the quotient of the percentage computed with
    its operations at the binary64 parameters, for comparison with
    [fmul] and [fdiv]. *)

Definition valueOf (x : spec_float) : Q :=
  match x with
  | S754_finite s m e =>
      ((if s then -1 else 1) * inject_Z (Zpos m) * two ^ e)%Q
  | _ => 0%Q
  end.

Definition ieeePercent (countedBytes totalBytes : positive) : Q :=
  valueOf
    (SFmul 53 1024
       (SFdiv 53 1024 (S754_finite false countedBytes 0)
          (S754_finite false totalBytes 0))
       (S754_finite false 100 0)).

(** ** The rest of the hook and its callers *)



(** The [disabled] attribute of the button "Clear finished" in [Uploader]
    (src/components/upload/upload-field.tsx). *)
Definition clearFinishedDisabled (items : list UploadItem.t) : bool :=
  forallb
    (fun item =>
       negb (bool_decide (UploadItem.status item = success))
       && negb (bool_decide (UploadItem.status item = error)))
    items.


(** The number of threads that await a call of the worker. *)
Definition awaiting (t : Thread) : nat :=
  match t with Awaiting _ => 1 | _ => 0 end.

Definition inFlight (p : Pool) : nat := list_sum (List.map awaiting (threads p)).

(** What a transfer does before it settles: requests, and progress between
    1 and 99. *)
Definition transferAction (id : jsstring) (a : Action) : Prop :=
  (exists body, a = Put body)
  \/ exists p, 1 <= p <= 99 /\ a = Update id (toProgress p).


(** Two of three calls have started, the first has completed: the pool of
    [sampleEntries] after its two threads have started and the first has
    run again. *)
Definition poolMidway : Pool :=
  {| nextIndex := 3;
     threads := [Done; Awaiting 2]%nat;
     claims := [(0, 0); (1, 1); (1, 2)]%nat;
     invoked := [0; 2]%nat;
     settled := [0]%nat |}.



(** A file of 100 bytes whose reader delivers 5 bytes first, and a network
    that grants the upload and stores the file. *)
Definition sampleVideo : File.t :=
  {| File.name := lit "clip.mp4";
     File.type := lit "video/mp4";
     File.size := 100;
     File.stream := Some [5; 95]%N |}.

Definition addedVideo : Added :=
  {| addedFile := sampleVideo; uploadId := lit "id-3"; blobId := lit "b-3" |}.

Definition storing : Network :=
  network (GrantOk (inr sampleSigned)) [{| pulls := 3; result := PutResponds 200 |}].

(** ** The life of an item *)












(** A name made of one or more code units, none of which is a colon. *)
Definition colonFree (name : jsstring) : Prop := name <> [] /\ ~ In 58%N name.

(** A store with the uploaded image and the file at 40% of [sampleQueue];
    the image has a preview. *)
Definition sampleStore : Store :=
  {| items := sampleQueue;
     previewMap := {[ lit "id-1" := lit "blob:b-1" ]};
     revoked := [] |}.

(** ** The grant endpoint: the route handler [POST] and the server
    libraries it calls (lib/auth, lib/env, lib/gcs) *)

(** The values thrown on the server, as the [catch] clause of [POST] tells
    them apart; a [ZodError] holds the paths of its issues. *)
Inductive ServerThrown : Type :=
  | AuthError (message : jsstring) (statusCode : N)
  | ZodError (issues : list (list jsstring))
  | SyntaxError (message : jsstring)
  | OtherError (message : jsstring)
  | NotError.

(** What the Cloud Storage client can throw: no error class of this
    application. *)
Inductive LibraryThrown : Type :=
  | LibrarySyntaxError (message : jsstring)
  | LibraryError (message : jsstring)
  | LibraryValue.

Definition thrownBy (e : LibraryThrown) : ServerThrown :=
  match e with
  | LibrarySyntaxError message => SyntaxError message
  | LibraryError message => OtherError message
  | LibraryValue => NotError
  end.

Module SessionUser.
Record t : Type := mk { id : jsstring }.
End SessionUser.

(** The part of a [Request] the handler reads: [headers.get("x-user-id")]
    and the outcome of [request.json()], [inl] with the message of the
    [SyntaxError] when the body is no JSON text. *)
Record Request : Type := mkRequest
  { xUserId : option jsstring;
    requestJson : jsstring + Json }.

(** [requireUser] *)
Definition requireUser (request : Request) : ServerThrown + SessionUser.t :=
  match trim <$> xUserId request with
  | Some (c :: userId) => inr {| SessionUser.id := c :: userId |}
  | _ => inl (AuthError (lit "Missing authentication context") 401)
  end.

(** [z.string().min(min)] and, with a bound, [.max(max)], applied to the
    value of a property; [None] when it raises an issue. *)
Definition zString (min : nat) (max : option nat) (value : option Json)
    : option jsstring :=
  match value with
  | Some (JString s) =>
      if (min <=? length s)%nat
         && match max with Some bound => (length s <=? bound)%nat | None => true end
      then Some s else None
  | _ => None
  end.

(** [data[key]] of an object. *)
Definition property (data : Json) (key : jsstring) : option Json :=
  match getField data key with
  | inr value => value
  | inl _ => None
  end.

Module UploadSignRequest.
Record t : Type := mk
  { fileName : jsstring;
    contentType : jsstring }.
End UploadSignRequest.

(** The issue of a property that failed its check. *)
Definition issueAt {A} (key : jsstring) (parsed : option A) : list (list jsstring) :=
  match parsed with Some _ => [] | None => [[key]] end.

(** [signRequestSchema.parse] *)
Definition signRequestSchema (json : Json) : ServerThrown + UploadSignRequest.t :=
  match json with
  | JObject _ =>
      let fileName := zString 1 (Some 255%nat) (property json (lit "fileName")) in
      let contentType := zString 1 (Some 255%nat) (property json (lit "contentType")) in
      match fileName, contentType with
      | Some fileName, Some contentType =>
          inr {| UploadSignRequest.fileName := fileName;
                 UploadSignRequest.contentType := contentType |}
      | _, _ =>
          inl (ZodError (issueAt (lit "fileName") fileName
                         ++ issueAt (lit "contentType") contentType))
      end
  | _ => inl (ZodError [[]])
  end.

(** The three variables of [process.env] that [getServerEnv] reads, and the
    validated environment. *)
Module ProcessEnv.
Record t : Type := mk
  { GCS_BUCKET_NAME : option jsstring;
    GCP_PROJECT_ID : option jsstring;
    GCP_SERVICE_ACCOUNT_KEY : option jsstring }.
End ProcessEnv.

Module ServerEnv.
Record t : Type := mk
  { GCS_BUCKET_NAME : jsstring;
    GCP_PROJECT_ID : jsstring;
    GCP_SERVICE_ACCOUNT_KEY : jsstring }.
End ServerEnv.

(** [envSchema.parse] of the object [getServerEnv] builds. *)
Definition envSchema (env : ProcessEnv.t) : ServerThrown + ServerEnv.t :=
  let bucket := zString 3 None (JString <$> ProcessEnv.GCS_BUCKET_NAME env) in
  let project := zString 3 None (JString <$> ProcessEnv.GCP_PROJECT_ID env) in
  let key := zString 2 None (JString <$> ProcessEnv.GCP_SERVICE_ACCOUNT_KEY env) in
  match bucket, project, key with
  | Some bucket, Some project, Some key =>
      inr {| ServerEnv.GCS_BUCKET_NAME := bucket;
             ServerEnv.GCP_PROJECT_ID := project;
             ServerEnv.GCP_SERVICE_ACCOUNT_KEY := key |}
  | _, _, _ =>
      inl (ZodError (issueAt (lit "GCS_BUCKET_NAME") bucket
                     ++ issueAt (lit "GCP_PROJECT_ID") project
                     ++ issueAt (lit "GCP_SERVICE_ACCOUNT_KEY") key))
  end.

Record Credentials : Type := mkCredentials
  { client_email : jsstring;
    private_key : jsstring }.

(** What [new Storage] is given. *)
Record Storage : Type := mkStorage
  { projectId : jsstring;
    credentials : Credentials }.

(** The two module variables [cache] and [storageClient]. *)
Record ServerState : Type := mkServerState
  { cache : option ServerEnv.t;
    storageClient : option Storage }.

(** What the runtime and the libraries supply: the environment;
    [JSON.parse], [inl] with the message of its [SyntaxError]; the e-mail
    check of zod; [ZodError.flatten]; [Date.prototype.toISOString] of a time
    value; the time at [new Date()] in [buildObjectName] and at
    [Date.now()] in [createSignedUploadUrl]; the hexadecimal text of
    [crypto.randomBytes(6)]; and [getSignedUrl] of the file [objectName] of
    the bucket, with the expiry and the content type. *)
Record Platform : Type := mkPlatform
  { processEnv : ProcessEnv.t;
    JSON_parse : jsstring -> jsstring + Json;
    isEmail : jsstring -> bool;
    flatten : list (list jsstring) -> Json;
    toISOString : Z -> jsstring;
    timeOfName : Z;
    timeOfGrant : Z;
    randomBytes : jsstring;
    getSignedUrl :
      Storage -> jsstring -> jsstring -> Z -> jsstring -> LibraryThrown + jsstring }.

(** [getServerEnv], on the module variable [cache]. *)
Definition getServerEnv (env : ProcessEnv.t) (cache : option ServerEnv.t)
    : (ServerThrown + ServerEnv.t) * option ServerEnv.t :=
  match cache with
  | Some cached => (inr cached, cache)
  | None =>
      match envSchema env with
      | inr parsed => (inr parsed, Some parsed)
      | inl e => (inl e, None)
      end
  end.

(** [serviceAccountSchema.parse] *)
Definition serviceAccountSchema (isEmail : jsstring -> bool) (json : Json)
    : ServerThrown + Credentials :=
  match json with
  | JObject _ =>
      let email :=
        match property json (lit "client_email") with
        | Some (JString s) => if isEmail s then Some s else None
        | _ => None
        end in
      let key := zString 1 None (property json (lit "private_key")) in
      match email, key with
      | Some email, Some key => inr {| client_email := email; private_key := key |}
      | _, _ =>
          inl (ZodError (issueAt (lit "client_email") email
                         ++ issueAt (lit "private_key") key))
      end
  | _ => inl (ZodError [[]])
  end.

(** [getStorageClient] *)
Definition getStorageClient (pf : Platform) (st : ServerState)
    : (ServerThrown + Storage) * ServerState :=
  match storageClient st with
  | Some client => (inr client, st)
  | None =>
      match getServerEnv (processEnv pf) (cache st) with
      | (inl e, cache') => (inl e, {| cache := cache'; storageClient := None |})
      | (inr env, cache') =>
          let st' := {| cache := cache'; storageClient := None |} in
          match JSON_parse pf (ServerEnv.GCP_SERVICE_ACCOUNT_KEY env) with
          | inl message =>
              (inl (OtherError
                      (lit "GCP_SERVICE_ACCOUNT_KEY must be valid JSON: " ++ message)),
               st')
          | inr parsed =>
              match serviceAccountSchema (isEmail pf) parsed with
              | inl e => (inl e, st')
              | inr credentials =>
                  let client :=
                    {| projectId := ServerEnv.GCP_PROJECT_ID env;
                       credentials := credentials |} in
                  (inr client, {| cache := cache'; storageClient := Some client |})
              end
          end
      end
  end.

(** [.replace(/\s+/g, "-")]: every maximal run of white space becomes one
    hyphen; [inRun] tells that the previous code unit was white space. *)
Fixpoint replaceWhiteSpaceRuns (inRun : bool) (s : jsstring) : jsstring :=
  match s with
  | [] => []
  | c :: rest =>
      if isWhiteSpace c then
        if inRun then replaceWhiteSpaceRuns true rest
        else 45%N :: replaceWhiteSpaceRuns true rest
      else c :: replaceWhiteSpaceRuns false rest
  end.

(** The class [[a-zA-Z0-9._-]]. *)
Definition isSafeCharacter (c : N) : bool :=
  ((97 <=? c) && (c <=? 122) || (65 <=? c) && (c <=? 90) || (48 <=? c) && (c <=? 57)
   || (c =? 46) || (c =? 95) || (c =? 45))%N.

(** [sanitizeFileName] *)
Definition sanitizeFileName (fileName : jsstring) : jsstring :=
  take 120
    (List.filter isSafeCharacter
       (replaceWhiteSpaceRuns false
          (List.map (fun c => if ((c =? 47) || (c =? 92))%N then 45%N else c) fileName))).

(** [buildObjectName]; [iso] is [new Date().toISOString()] and [random] is
    [crypto.randomBytes(6).toString("hex")]. *)
Definition buildObjectName (iso random userId fileName : jsstring) : jsstring :=
  let timestamp := List.map (fun c => if ((c =? 58) || (c =? 46))%N then 45%N else c) iso in
  let safeName := orElse (sanitizeFileName fileName) (lit "upload.bin") in
  lit "uploads/" ++ userId ++ lit "/" ++ timestamp ++ lit "-" ++ random ++ lit "-"
  ++ safeName.

(** [s.split(sep)] for a separator of one code unit. *)
Fixpoint split (sep : N) (s : jsstring) : list jsstring :=
  match s with
  | [] => [[]]
  | c :: rest =>
      if (c =? sep)%N then [] :: split sep rest
      else
        match split sep rest with
        | part :: parts => (c :: part) :: parts
        | [] => [[c]]
        end
  end.

(** [encodeURIComponent], [None] when it throws a [URIError]: the code
    units it leaves as they are, the octets of a code point in UTF-8, and
    the escape of an octet. *)
Definition uriUnreserved (c : N) : bool :=
  ((97 <=? c) && (c <=? 122) || (65 <=? c) && (c <=? 90) || (48 <=? c) && (c <=? 57))%N
  || existsb (N.eqb c) [45; 95; 46; 33; 126; 42; 39; 40; 41]%N.

Definition utf8 (cp : N) : list N :=
  (if cp <? 128 then [cp]
   else if cp <? 2048 then [192 + cp / 64; 128 + cp mod 64]
   else if cp <? 65536 then
     [224 + cp / 4096; 128 + (cp / 64) mod 64; 128 + cp mod 64]
   else
     [240 + cp / 262144; 128 + (cp / 4096) mod 64; 128 + (cp / 64) mod 64;
      128 + cp mod 64])%N.

Definition hexDigit (n : N) : N := (if n <? 10 then 48 + n else 55 + n)%N.

Definition escapeOctet (octet : N) : jsstring :=
  [37%N; hexDigit (octet / 16); hexDigit (octet mod 16)].

Definition isLeadSurrogate (c : N) : bool := ((55296 <=? c) && (c <=? 56319))%N.
Definition isTrailSurrogate (c : N) : bool := ((56320 <=? c) && (c <=? 57343))%N.

Fixpoint encodeURIComponent (s : jsstring) : option jsstring :=
  match s with
  | [] => Some []
  | c :: rest =>
      if uriUnreserved c then cons c <$> encodeURIComponent rest
      else if isTrailSurrogate c then None
      else if isLeadSurrogate c then
        match rest with
        | d :: rest' =>
            if isTrailSurrogate d then
              app (flat_map escapeOctet
                     (utf8 ((c - 55296) * 1024 + (d - 56320) + 65536)%N))
                <$> encodeURIComponent rest'
            else None
        | [] => None
        end
      else app (flat_map escapeOctet (utf8 c)) <$> encodeURIComponent rest
  end.

(** [buildPublicUrl] *)
Definition buildPublicUrl (bucketName objectName : jsstring) : option jsstring :=
  match mapM encodeURIComponent (split 47 objectName) with
  | Some encodedParts =>
      Some (lit "https://storage.googleapis.com/" ++ bucketName ++ lit "/"
            ++ join (lit "/") encodedParts)
  | None => None
  end.

(** [createSignedUploadUrl]; the result has the fields of
    [UploadSignResponse], its [method] being the constant "PUT". *)
Definition createSignedUploadUrl (pf : Platform) (userId fileName contentType : jsstring)
    (st : ServerState) : (ServerThrown + UploadSignResponse.t) * ServerState :=
  match getServerEnv (processEnv pf) (cache st) with
  | (inl e, cache') => (inl e, {| cache := cache'; storageClient := storageClient st |})
  | (inr env, cache') =>
      match getStorageClient pf {| cache := cache'; storageClient := storageClient st |} with
      | (inl e, st') => (inl e, st')
      | (inr storage, st') =>
          let objectName :=
            buildObjectName (toISOString pf (timeOfName pf)) (randomBytes pf)
              userId fileName in
          let expiresMs := timeOfGrant pf + 15 * 60 * 1000 in
          match getSignedUrl pf storage (ServerEnv.GCS_BUCKET_NAME env) objectName
                  expiresMs contentType with
          | inl e => (inl (thrownBy e), st')
          | inr uploadUrl =>
              match buildPublicUrl (ServerEnv.GCS_BUCKET_NAME env) objectName with
              | None => (inl (OtherError (lit "URI malformed")), st')
              | Some publicUrl =>
                  (inr {| UploadSignResponse.uploadUrl := uploadUrl;
                          UploadSignResponse.headers :=
                            [(lit "Content-Type", contentType)];
                          UploadSignResponse.objectName := objectName;
                          UploadSignResponse.publicUrl := publicUrl;
                          UploadSignResponse.expiresAt := toISOString pf expiresMs |},
                   st')
              end
          end
      end
  end.

(** What [NextResponse.json(body, { status })] answers. *)
Record NextResponse : Type := mkNextResponse
  { responseStatus : N;
    responseBody : Json }.

Definition signedJson (signed : UploadSignResponse.t) : Json :=
  JObject
    [(lit "method", JString (lit "PUT"));
     (lit "uploadUrl", JString (UploadSignResponse.uploadUrl signed));
     (lit "headers",
      JObject (List.map (fun h => (fst h, JString (snd h)))
                 (UploadSignResponse.headers signed)));
     (lit "objectName", JString (UploadSignResponse.objectName signed));
     (lit "publicUrl", JString (UploadSignResponse.publicUrl signed));
     (lit "expiresAt", JString (UploadSignResponse.expiresAt signed))].

(** The [try] block of [POST]. *)
Definition POST_try (pf : Platform) (request : Request) (st : ServerState)
    : (ServerThrown + UploadSignResponse.t) * ServerState :=
  match requireUser request with
  | inl e => (inl e, st)
  | inr user =>
      match requestJson request with
      | inl message => (inl (SyntaxError message), st)
      | inr json =>
          match signRequestSchema json with
          | inl e => (inl e, st)
          | inr input =>
              createSignedUploadUrl pf (SessionUser.id user)
                (UploadSignRequest.fileName input)
                (UploadSignRequest.contentType input) st
          end
      end
  end.

(** [POST] *)
Definition POST (pf : Platform) (request : Request) (st : ServerState)
    : NextResponse * ServerState :=
  let '(outcome, st') := POST_try pf request st in
  (match outcome with
   | inr signed => {| responseStatus := 200; responseBody := signedJson signed |}
   | inl (AuthError message statusCode) =>
       {| responseStatus := statusCode;
          responseBody := JObject [(lit "error", JString message)] |}
   | inl (ZodError issues) =>
       {| responseStatus := 400;
          responseBody :=
            JObject [(lit "error", JString (lit "Invalid request payload"));
                     (lit "details", flatten pf issues)] |}
   | inl (SyntaxError _) =>
       {| responseStatus := 400;
          responseBody := JObject [(lit "error", JString (lit "Invalid JSON request body"))] |}
   | inl (OtherError message) =>
       {| responseStatus := 500;
          responseBody :=
            JObject [(lit "error", JString (lit "Failed to generate signed upload URL"));
                     (lit "details", JString message)] |}
   | inl NotError =>
       {| responseStatus := 500;
          responseBody :=
            JObject [(lit "error", JString (lit "Failed to generate signed upload URL"));
                     (lit "details", JString (lit "Unknown server error"))] |}
   end,
   st').

(** ** The endpoint seen from the browser *)

(** The answer as [fetch] hands it to [requestSignedUrl]: the body is the
    JSON text of [responseBody], which [response.json()] reads back. *)
Definition received (statusText : jsstring) (r : NextResponse) : Response :=
  {| status := responseStatus r;
     statusText := statusText;
     json := Some (responseBody r) |}.

(** The value [requestSignedUrl] sends as the body of its request. *)
Definition payload (file : File.t) : Json :=
  JObject
    [(lit "fileName", JString (File.name file));
     (lit "contentType", JString (orElse (File.type file) DEFAULT_CONTENT_TYPE))].

(** A request with no header and one of the demo user for [samplePng]; a
    server that has not validated its environment, and a platform whose
    environment lacks the bucket name. *)
Definition anonymous : Request :=
  {| xUserId := None; requestJson := inl (lit "Unexpected end of JSON input") |}.

Definition demoRequest : Request :=
  {| xUserId := Some DEFAULT_AUTH_STUB_HEADER; requestJson := inr (payload samplePng) |}.

Definition coldServer : ServerState := {| cache := None; storageClient := None |}.

Definition noBucket : Platform :=
  {| processEnv :=
       {| ProcessEnv.GCS_BUCKET_NAME := None;
          ProcessEnv.GCP_PROJECT_ID := Some (lit "project-1");
          ProcessEnv.GCP_SERVICE_ACCOUNT_KEY := Some (lit "{}") |};
     JSON_parse := fun _ => inr (JObject []);
     isEmail := fun _ => true;
     flatten := fun _ => JObject [];
     toISOString := fun _ => lit "2026-01-01T00:00:00.000Z";
     timeOfName := 0;
     timeOfGrant := 0;
     randomBytes := lit "a1b2c3d4e5f6";
     getSignedUrl := fun _ _ _ _ _ => inl LibraryValue |}.

(** A file whose name has 256 code units. *)
Definition longNamed : File.t :=
  {| File.name := repeat 97%N 256;
     File.type := lit "text/plain";
     File.size := 1;
     File.stream := None |}.

(** A platform with a complete environment, a well-formed key and a store
    that signs. *)
Definition granting : Platform :=
  {| processEnv :=
       {| ProcessEnv.GCS_BUCKET_NAME := Some (lit "bucket-1");
          ProcessEnv.GCP_PROJECT_ID := Some (lit "project-1");
          ProcessEnv.GCP_SERVICE_ACCOUNT_KEY := Some (lit "{...}") |};
     JSON_parse :=
       fun _ => inr (JObject [(lit "client_email", JString (lit "u@example.com"));
                              (lit "private_key", JString (lit "k"))]);
     isEmail := fun _ => true;
     flatten := fun _ => JObject [];
     toISOString := fun _ => lit "2026-01-01T00:00:00.000Z";
     timeOfName := 0;
     timeOfGrant := 0;
     randomBytes := lit "a1b2c3d4e5f6";
     getSignedUrl := fun _ _ _ _ _ => inr (lit "https://storage.googleapis.com/bucket-1/o?sig") |}.

(** A network that hands the uploader the answer of the endpoint to a
    request without the header. *)
Definition refusing : Network :=
  network (GrantNotOk (received (lit "Unauthorized")
                         (fst (POST noBucket anonymous coldServer)))) [].
(** * Properties *)

(** ** Rounding to binary64 *)

Lemma two_pow_pos (k : Z) : (0 < two ^ k)%Q.
Proof. apply Qpower_0_lt. reflexivity. Qed.

Lemma two_pow_nonzero (k : Z) : ~ (two ^ k == 0)%Q.
Proof. intros H. pose proof (two_pow_pos k) as P. rewrite H in P. discriminate. Qed.

Lemma two_pow_add (a b : Z) : (two ^ (a + b) == two ^ a * two ^ b)%Q.
Proof. apply Qpower_plus. discriminate. Qed.

Lemma two_pow_le (a b : Z) : a <= b -> (two ^ a <= two ^ b)%Q.
Proof. intros H. apply Qpower_le_compat_l; [exact H | discriminate]. Qed.

Lemma two_pow_lt_inv (a b : Z) : (two ^ a < two ^ b)%Q -> a < b.
Proof. intros H. apply (Qpower_lt_compat_l_inv two); [exact H | reflexivity]. Qed.

Lemma two_pow_Z (k : Z) : 0 <= k -> (inject_Z (2 ^ k) == two ^ k)%Q.
Proof. intros H. apply Zpower_Qpower. exact H. Qed.

(** [Z.log2] brackets a positive integer between consecutive powers of two. *)
Lemma log2_bracket (n : Z) :
  0 < n -> (two ^ Z.log2 n <= inject_Z n /\ inject_Z n < two ^ (Z.log2 n + 1))%Q.
Proof.
  intros Hn. pose proof (Z.log2_spec n Hn) as [Hlo Hhi].
  pose proof (Z.log2_nonneg n) as Hk.
  split.
  - rewrite <- two_pow_Z by lia. rewrite <- Zle_Qle. exact Hlo.
  - rewrite <- two_pow_Z by lia. rewrite <- Zlt_Qlt.
    replace (Z.log2 n + 1) with (Z.succ (Z.log2 n)) by lia. exact Hhi.
Qed.

Lemma Q_as_quotient (q : Q) : (q == inject_Z (Qnum q) / inject_Z (Zpos (Qden q)))%Q.
Proof.
  destruct q as [n d]. unfold Qeq, Qdiv, Qmult, Qinv, inject_Z. simpl. lia.
Qed.

Lemma ilog2_spec (q : Q) :
  (0 < q)%Q -> (two ^ ilog2 q <= q /\ q < two ^ (ilog2 q + 1))%Q.
Proof.
  intros Hq.
  assert (Hn : 0 < Qnum q) by (destruct q as [n d]; unfold Qlt in Hq; simpl in *; lia).
  destruct (log2_bracket (Qnum q) Hn) as [Hn1 Hn2].
  destruct (log2_bracket (Zpos (Qden q)) eq_refl) as [Hd1 Hd2].
  set (a := Z.log2 (Qnum q)) in *. set (b := Z.log2 (Zpos (Qden q))) in *.
  assert (Hdpos : (0 < inject_Z (Zpos (Qden q)))%Q) by reflexivity.
  unfold ilog2. fold a b.
  destruct (Qle_bool (two ^ (a - b)) q) eqn:Ht.
  - apply Qle_bool_iff in Ht. split; [exact Ht|].
    rewrite (Q_as_quotient q) at 1.
    apply Qlt_shift_div_r; [exact Hdpos|].
    eapply Qlt_le_trans; [exact Hn2|].
    replace (a + 1) with ((a - b + 1) + b) by lia. rewrite two_pow_add.
    apply Qmult_le_l; [apply two_pow_pos | exact Hd1].
  - assert (Hlt : (q < two ^ (a - b))%Q).
    { apply Qnot_le_lt. intros H. apply Qle_bool_iff in H. congruence. }
    split.
    + rewrite (Q_as_quotient q).
      apply Qle_shift_div_l; [exact Hdpos|].
      eapply Qle_trans; [|exact Hn1].
      replace a with ((a - b - 1) + (b + 1)) at 2 by lia. rewrite two_pow_add.
      apply Qmult_le_l; [apply two_pow_pos | apply Qlt_le_weak; exact Hd2].
    + replace (a - b - 1 + 1) with (a - b) by lia. exact Hlt.
Qed.

Lemma ilog2_unique (q : Q) (e : Z) :
  (two ^ e <= q)%Q -> (q < two ^ (e + 1))%Q -> ilog2 q = e.
Proof.
  intros Hlo Hhi.
  assert (Hq : (0 < q)%Q) by (eapply Qlt_le_trans; [apply two_pow_pos | exact Hlo]).
  destruct (ilog2_spec q Hq) as [Slo Shi].
  assert (ilog2 q < e + 1).
  { apply two_pow_lt_inv. eapply Qle_lt_trans; [exact Slo | exact Hhi]. }
  assert (e < ilog2 q + 1).
  { apply two_pow_lt_inv. eapply Qle_lt_trans; [exact Hlo | exact Shi]. }
  lia.
Qed.

Lemma ilog2_mono (x y : Q) : (0 < x)%Q -> (x <= y)%Q -> ilog2 x <= ilog2 y.
Proof.
  intros Hx Hxy.
  assert (Hy : (0 < y)%Q) by (eapply Qlt_le_trans; eauto).
  destruct (ilog2_spec x Hx) as [Xlo _]. destruct (ilog2_spec y Hy) as [_ Yhi].
  assert (ilog2 x < ilog2 y + 1); [|lia].
  apply two_pow_lt_inv.
  eapply Qle_lt_trans; [exact Xlo|]. eapply Qle_lt_trans; [exact Hxy | exact Yhi].
Qed.

Lemma ilog2_comp (x y : Q) : (0 < x)%Q -> (x == y)%Q -> ilog2 x = ilog2 y.
Proof.
  intros Hx E. destruct (ilog2_spec x Hx) as [lo hi].
  symmetry. apply ilog2_unique; rewrite <- E; assumption.
Qed.

Lemma roundHalfEven_bounds (q : Q) :
  Qfloor q <= roundHalfEven q <= Qfloor q + 1.
Proof.
  unfold roundHalfEven.
  destruct (q - inject_Z (Qfloor q) ?= 1 # 2)%Q; try destruct (Z.even (Qfloor q)); lia.
Qed.

Lemma roundHalfEven_comp (x y : Q) : (x == y)%Q -> roundHalfEven x = roundHalfEven y.
Proof.
  intros E. unfold roundHalfEven.
  rewrite (Qfloor_comp _ _ E).
  assert (E' : (x - inject_Z (Qfloor y) == y - inject_Z (Qfloor y))%Q) by (rewrite E; reflexivity).
  rewrite (Qcompare_comp _ _ E' _ _ (Qeq_refl (1 # 2))). reflexivity.
Qed.

Lemma roundHalfEven_mono (x y : Q) : (x <= y)%Q -> roundHalfEven x <= roundHalfEven y.
Proof.
  intros Hxy.
  pose proof (Qfloor_resp_le _ _ Hxy) as Hf.
  destruct (Z.eq_dec (Qfloor x) (Qfloor y)) as [E|N].
  - unfold roundHalfEven. rewrite E.
    assert (Hr : (x - inject_Z (Qfloor y) <= y - inject_Z (Qfloor y))%Q).
    { apply Qplus_le_l. exact Hxy. }
    destruct (Qcompare_spec (x - inject_Z (Qfloor y)) (1 # 2)) as [Ex|Lx|Gx];
      destruct (Qcompare_spec (y - inject_Z (Qfloor y)) (1 # 2)) as [Ey|Ly|Gy];
      try destruct (Z.even (Qfloor y)); try lia; exfalso; lra.
  - pose proof (roundHalfEven_bounds x). pose proof (roundHalfEven_bounds y). lia.
Qed.

Lemma roundHalfEven_Z (z : Z) : roundHalfEven (inject_Z z) = z.
Proof.
  unfold roundHalfEven. rewrite Qfloor_Z.
  assert (E : (inject_Z z - inject_Z z == 0)%Q) by ring.
  rewrite (Qcompare_comp _ _ E _ _ (Qeq_refl (1 # 2))). reflexivity.
Qed.

(** Scaling by a power of two and back. *)
Lemma scale_cancel (q : Q) (e : Z) : (q / two ^ e * two ^ e == q)%Q.
Proof. field. apply two_pow_nonzero. Qed.

Lemma scale_le (x y : Q) (e : Z) : (x <= y)%Q -> (x / two ^ e <= y / two ^ e)%Q.
Proof.
  intros H. unfold Qdiv. apply Qmult_le_compat_r; [exact H|].
  apply Qinv_le_0_compat. apply Qlt_le_weak. apply two_pow_pos.
Qed.

Lemma roundDouble_pos (q : Q) :
  (0 < q)%Q ->
  roundDouble q =
    (inject_Z (roundHalfEven (q / two ^ ulpExponent q)) * two ^ ulpExponent q)%Q.
Proof.
  intros Hq. unfold roundDouble.
  destruct (Qeq_bool q 0) eqn:E.
  - apply Qeq_bool_eq in E. rewrite E in Hq. discriminate.
  - unfold ulpExponent. rewrite (ilog2_comp (Qabs q) q).
    + reflexivity.
    + rewrite Qabs_pos; [exact Hq | apply Qlt_le_weak; exact Hq].
    + apply Qabs_pos. apply Qlt_le_weak; exact Hq.
Qed.

Lemma roundDouble_zero (q : Q) : (q == 0)%Q -> roundDouble q = 0%Q.
Proof. intros E. unfold roundDouble. rewrite (Qeq_eq_bool _ _ E). reflexivity. Qed.

Lemma roundDouble_comp (x y : Q) : (x == y)%Q -> (roundDouble x == roundDouble y)%Q.
Proof.
  intros E. unfold roundDouble.
  rewrite (Qeqb_comp _ _ E 0%Q 0%Q (Qeq_refl 0)).
  destruct (Qeq_bool y 0) eqn:Z0; [reflexivity|].
  assert (Hpos : (0 < Qabs x)%Q).
  { apply Qeq_bool_neq in Z0.
    destruct (Qlt_le_dec x 0) as [Hn|Hp].
    - rewrite Qabs_neg by lra. lra.
    - rewrite Qabs_pos by lra.
      destruct (Qlt_le_dec 0 x) as [H|H]; [exact H|].
      exfalso. apply Z0. lra. }
  unfold ulpExponent.
  rewrite (ilog2_comp (Qabs x) (Qabs y) Hpos) by (rewrite E; reflexivity).
  set (e := Z.max _ _).
  rewrite (roundHalfEven_comp (x / two ^ e) (y / two ^ e)) by (rewrite E; reflexivity).
  reflexivity.
Qed.

Lemma roundDouble_nonneg (q : Q) : (0 <= q)%Q -> (0 <= roundDouble q)%Q.
Proof.
  intros Hq. destruct (Qeq_bool q 0) eqn:E.
  - unfold roundDouble. rewrite E. apply Qle_refl.
  - assert (Hpos : (0 < q)%Q).
    { apply Qeq_bool_neq in E. apply Qle_lteq in Hq as [H|H]; [exact H|].
      exfalso. apply E. symmetry. exact H. }
    rewrite (roundDouble_pos q Hpos).
    apply Qmult_le_0_compat; [|apply Qlt_le_weak, two_pow_pos].
    change 0%Q with (inject_Z 0). rewrite <- Zle_Qle.
    rewrite <- (roundHalfEven_Z 0). apply roundHalfEven_mono.
    apply Qle_shift_div_l; [apply two_pow_pos|]. 
    rewrite Qmult_0_l. exact Hq.
Qed.

Lemma ulpExponent_mono (x y : Q) :
  (0 < x)%Q -> (x <= y)%Q -> ulpExponent x <= ulpExponent y.
Proof.
  intros Hx Hxy. unfold ulpExponent. pose proof (ilog2_mono x y Hx Hxy). lia.
Qed.

(** The significand of a positive number has at most 53 bits ... *)
Lemma significand_upper (q : Q) :
  (0 < q)%Q -> roundHalfEven (q / two ^ ulpExponent q) <= 2 ^ 53.
Proof.
  intros Hq. rewrite <- (roundHalfEven_Z (2 ^ 53)). apply roundHalfEven_mono.
  apply Qle_shift_div_r; [apply two_pow_pos|].
  destruct (ilog2_spec q Hq) as [_ Hhi].
  apply Qlt_le_weak. eapply Qlt_le_trans; [exact Hhi|].
  rewrite (two_pow_Z 53) by lia. rewrite <- two_pow_add.
  apply two_pow_le. unfold ulpExponent. lia.
Qed.

(** ... and exactly 53 above the subnormal range. *)
Lemma significand_lower (q : Q) :
  (0 < q)%Q -> -1074 < ulpExponent q ->
  2 ^ 52 <= roundHalfEven (q / two ^ ulpExponent q).
Proof.
  intros Hq He. rewrite <- (roundHalfEven_Z (2 ^ 52)). apply roundHalfEven_mono.
  apply Qle_shift_div_l; [apply two_pow_pos|].
  destruct (ilog2_spec q Hq) as [Hlo _].
  eapply Qle_trans; [|exact Hlo].
  rewrite (two_pow_Z 52) by lia. rewrite <- two_pow_add.
  apply two_pow_le. unfold ulpExponent in *. lia.
Qed.

Lemma roundDouble_mono (x y : Q) :
  (0 <= x)%Q -> (x <= y)%Q -> (roundDouble x <= roundDouble y)%Q.
Proof.
  intros Hx Hxy.
  destruct (Qeq_bool x 0) eqn:E.
  - unfold roundDouble at 1. rewrite E. apply roundDouble_nonneg. lra.
  - assert (Px : (0 < x)%Q).
    { apply Qeq_bool_neq in E. destruct (Qlt_le_dec 0 x) as [H|H]; [exact H|].
      exfalso. apply E. lra. }
    assert (Py : (0 < y)%Q) by lra.
    rewrite (roundDouble_pos x Px), (roundDouble_pos y Py).
    pose proof (ulpExponent_mono x y Px Hxy) as He.
    destruct (Z.eq_dec (ulpExponent x) (ulpExponent y)) as [Ee|Ne].
    + rewrite Ee. apply Qmult_le_compat_r; [|apply Qlt_le_weak, two_pow_pos].
      rewrite <- Zle_Qle. apply roundHalfEven_mono. apply scale_le. exact Hxy.
    + assert (Hy : -1074 < ulpExponent y) by (unfold ulpExponent in *; lia).
      apply Qle_trans with (two ^ (53 + ulpExponent x))%Q.
      * rewrite two_pow_add. rewrite <- (two_pow_Z 53) by lia.
        apply Qmult_le_compat_r; [|apply Qlt_le_weak, two_pow_pos].
        rewrite <- Zle_Qle. apply significand_upper. exact Px.
      * apply Qle_trans with (two ^ (52 + ulpExponent y))%Q.
        -- apply two_pow_le. lia.
        -- rewrite two_pow_add. rewrite <- (two_pow_Z 52) by lia.
           apply Qmult_le_compat_r; [|apply Qlt_le_weak, two_pow_pos].
           rewrite <- Zle_Qle. apply significand_lower; assumption.
Qed.

(** Integers below [2^53] are representable. *)
Lemma roundDouble_int (z : Z) :
  0 <= z < 2 ^ 53 -> (roundDouble (inject_Z z) == inject_Z z)%Q.
Proof.
  intros [Hlo Hhi].
  destruct (Z.eq_dec z 0) as [->|Nz]; [reflexivity|].
  assert (Pz : (0 < inject_Z z)%Q) by (change 0%Q with (inject_Z 0); rewrite <- Zlt_Qlt; lia).
  rewrite (roundDouble_pos _ Pz).
  destruct (log2_bracket z ltac:(lia)) as [Blo Bhi].
  assert (El : ilog2 (inject_Z z) = Z.log2 z) by (apply ilog2_unique; assumption).
  assert (Hl : 0 <= Z.log2 z < 53).
  { split; [apply Z.log2_nonneg|]. apply Z.log2_lt_pow2; lia. }
  assert (Ee : ulpExponent (inject_Z z) = Z.log2 z - 52) by (unfold ulpExponent; lia).
  rewrite Ee. set (k := 52 - Z.log2 z).
  assert (Es : (inject_Z z / two ^ (Z.log2 z - 52) == inject_Z (z * 2 ^ k))%Q).
  { rewrite inject_Z_mult. rewrite (two_pow_Z k) by (unfold k; lia).
    replace (Z.log2 z - 52) with (- k) by (unfold k; lia).
    rewrite Qpower_opp. field. apply two_pow_nonzero. }
  rewrite (roundHalfEven_comp _ _ Es), roundHalfEven_Z.
  rewrite <- Es. apply scale_cancel.
Qed.

(** On every pair of byte counts up to 64 the model computes the very
    number the Standard Library's specification gives, and 29 of 200 bytes
    make 14 percent, not 15. *)
Example percent_agrees_with_SpecFloat :
  forallb
    (fun total =>
       forallb
         (fun counted =>
            Qeq_bool
              (fmul (fdiv (inject_Z (Zpos counted)) (inject_Z (Zpos total)))
                 (inject_Z 100))
              (ieeePercent counted total))
         (List.map Pos.of_nat (seq 1 64)))
    (List.map Pos.of_nat (seq 1 64))
  = true
  /\ percentOf (toNumber 29) 200 = 14.
Proof. split; vm_compute; reflexivity. Qed.

(** ** Transfer executor *)

Lemma drain_trackedBody (id : jsstring) (size : N) (net : Network) :
  forall (count : nat) (chunks : list N) (uploadedBytes : Q) (log : list Action),
    drain count (trackedBody_pull size (reportProgress id)) (chunks, uploadedBytes) net log
    = (inr tt,
       log ++ List.map (fun c => Update id (toProgress (percentOf c size)))
                (countedBytes uploadedBytes (take count chunks))).
Proof.
  induction count as [|count IH]; intros chunks uploadedBytes log.
  - simpl. unfold ret. rewrite app_nil_r. reflexivity.
  - destruct chunks as [|value rest].
    + simpl. unfold bind, ret. simpl. rewrite app_nil_r. reflexivity.
    + cbn [drain trackedBody_pull]. unfold bind at 1.
      unfold bind at 1. unfold reportProgress at 1, setItem, perform, ret.
      rewrite IH. cbn [take countedBytes List.map]. 
      rewrite <- app_assoc. reflexivity.
Qed.


Lemma fetchPut_stream (id : jsstring) (size : N) (chunks : list N)
    (net : Network) (log : list Action) :
  fetchPut StreamBody (trackedBody_pull size (reportProgress id)) (chunks, 0%Q) net log
  = let reply := put net (length (List.filter isPut log)) in
    (match result reply with
     | PutRejects reason => inl reason
     | PutResponds status => inr status
     end,
     log ++ streamedActions id size (pulls reply) chunks).
Proof.
  unfold fetchPut, streamedActions. rewrite drain_trackedBody.
  cbv zeta. rewrite <- app_assoc.
  destruct (result (put net (length (List.filter isPut log)))); reflexivity.
Qed.

Lemma bufferedPut_run (id : jsstring) (net : Network) (log : list Action) :
  bufferedPut (reportProgress id) net log
  = match result (put net (length (List.filter isPut log))) with
    | PutRejects reason => (inl reason, log ++ [Put FileBody])
    | PutResponds status =>
        if ok status
        then (inr tt, log ++ [Put FileBody; Update id (toProgress 100)])
        else (inl (transferError status), log ++ [Put FileBody])
    end.
Proof.
  unfold bufferedPut, bind, fetchPut. cbv zeta.
  destruct (result (put net (length (List.filter isPut log)))) as [reason|status].
  - reflexivity.
  - destruct (ok status); cbn.
    + unfold reportProgress, setItem, perform. rewrite <- app_assoc. reflexivity.
    + reflexivity.
Qed.


(** The streamed path of [uploadFileDirectToGcs], whatever the store
    answers. *)
Lemma uploadFileDirectToGcs_streamed (file : File.t) (signed : UploadSignResponse.t)
    (id : jsstring) (net : Network) (log : list Action) (chunks : list N) :
  File.stream file = Some chunks ->
  File.size file <> 0%N ->
  let reply := put net (length (List.filter isPut log)) in
  let log1 := log ++ streamedActions id (File.size file) (pulls reply) chunks in
  uploadFileDirectToGcs file signed (reportProgress id) net log
  = match result reply with
    | PutRejects _ => bufferedPut (reportProgress id) net log1
    | PutResponds status =>
        if ok status then (inr tt, log1 ++ [Update id (toProgress 100)])
        else (inl (transferError status), log1)
    end.
Proof.
  intros Hstream Hsize. unfold uploadFileDirectToGcs. rewrite Hstream.
  apply N.eqb_neq in Hsize. rewrite Hsize.
  unfold bind at 1. unfold attempt. rewrite fetchPut_stream. cbv zeta.
  destruct (result (put net (length (List.filter isPut log)))) as [reason|status].
  - reflexivity.
  - destruct (ok status); reflexivity.
Qed.


Lemma percentOf_bounds (c : Q) (size : N) : 1 <= percentOf c size <= 99.
Proof. unfold percentOf. lia. Qed.

Lemma percentOf_comp (x y : Q) (size : N) :
  (x == y)%Q -> percentOf x size = percentOf y size.
Proof.
  intros E. unfold percentOf, Math_round, fmul, fdiv.
  assert (E1 : (roundDouble (x / toNumber size) == roundDouble (y / toNumber size))%Q).
  { apply roundDouble_comp. rewrite E. reflexivity. }
  assert (E2 : (roundDouble (roundDouble (x / toNumber size) * inject_Z 100)
                == roundDouble (roundDouble (y / toNumber size) * inject_Z 100))%Q).
  { apply roundDouble_comp. rewrite E1. reflexivity. }
  rewrite (Qfloor_comp _ _ (Qplus_comp _ _ E2 _ _ (Qeq_refl (1 # 2)))). reflexivity.
Qed.

Lemma toNumber_pos (n : N) : n <> 0%N -> (0 < toNumber n)%Q.
Proof.
  intros H. unfold toNumber. change 0%Q with (inject_Z 0). rewrite <- Zlt_Qlt. lia.
Qed.

Lemma toNumber_le (a b : N) : (a <= b)%N -> (toNumber a <= toNumber b)%Q.
Proof. intros H. unfold toNumber. rewrite <- Zle_Qle. lia. Qed.

Lemma toNumber_nonneg (n : N) : (0 <= toNumber n)%Q.
Proof. unfold toNumber. change 0%Q with (inject_Z 0). rewrite <- Zle_Qle. lia. Qed.

(** The percentage does not decrease when more bytes are counted. *)
Lemma percentOf_mono (x y : Q) (size : N) :
  size <> 0%N -> (0 <= x)%Q -> (x <= y)%Q -> percentOf x size <= percentOf y size.
Proof.
  intros Hsize Hx Hxy. pose proof (toNumber_pos size Hsize) as Hs.
  assert (Hq : (x / toNumber size <= y / toNumber size)%Q).
  { unfold Qdiv. apply Qmult_le_compat_r; [exact Hxy|].
    apply Qinv_le_0_compat. lra. }
  assert (Hq0 : (0 <= x / toNumber size)%Q).
  { apply Qle_shift_div_l; [exact Hs|]. lra. }
  assert (H1 : (fdiv x (toNumber size) <= fdiv y (toNumber size))%Q)
    by (apply roundDouble_mono; assumption).
  assert (H0 : (0 <= fdiv x (toNumber size))%Q) by (apply roundDouble_nonneg; exact Hq0).
  assert (H2 : (fmul (fdiv x (toNumber size)) (inject_Z 100)
                <= fmul (fdiv y (toNumber size)) (inject_Z 100))%Q).
  { apply roundDouble_mono.
    - apply Qmult_le_0_compat; [exact H0 | discriminate].
    - apply Qmult_le_compat_r; [exact H1 | discriminate]. }
  assert (H3 : Math_round (fmul (fdiv x (toNumber size)) (inject_Z 100))
               <= Math_round (fmul (fdiv y (toNumber size)) (inject_Z 100))).
  { unfold Math_round. apply Qfloor_resp_le. lra. }
  unfold percentOf. lia.
Qed.

Lemma totalLength_take (count : nat) (chunks : list N) :
  (totalLength (take count chunks) <= totalLength chunks)%N.
Proof.
  unfold totalLength. revert count.
  induction chunks as [|v rest IH]; intros [|count]; cbn; try lia.
  specialize (IH count). lia.
Qed.

(** While the byte counter stays below [2^53] it is exact: it holds the
    running sum of the chunk lengths. *)
Lemma countedBytes_exact (chunks : list N) :
  forall (uploadedBytes : Q) (start : N),
    (uploadedBytes == toNumber start)%Q ->
    (start + totalLength chunks < 2 ^ 53)%N ->
    Forall2 Qeq (countedBytes uploadedBytes chunks)
      (List.map toNumber (runningTotals start chunks)).
Proof.
  induction chunks as [|value rest IH]; intros uploadedBytes start E Hlt.
  - constructor.
  - cbn [countedBytes runningTotals List.map]. cbn [totalLength fold_right] in Hlt.
    fold (totalLength rest) in Hlt.
    assert (HltZ : Z.of_N start + Z.of_N value + Z.of_N (totalLength rest) < 2 ^ 53).
    { apply N2Z.inj_lt in Hlt. rewrite !N2Z.inj_add, N2Z.inj_pow in Hlt.
      change (Z.of_N 2 ^ Z.of_N 53) with (2 ^ 53) in Hlt. lia. }
    assert (E' : (fadd uploadedBytes (toNumber value) == toNumber (start + value))%Q).
    { unfold fadd.
      transitivity (roundDouble (inject_Z (Z.of_N start + Z.of_N value))).
      - apply roundDouble_comp. rewrite E. unfold toNumber.
        rewrite inject_Z_plus. reflexivity.
      - etransitivity; [apply roundDouble_int; lia|].
        unfold toNumber. rewrite N2Z.inj_add. reflexivity. }
    constructor; [exact E'|]. apply IH; [exact E'|lia].
Qed.

Lemma runningTotals_sorted (chunks : list N) :
  forall start : N,
    StronglySorted N.le (runningTotals start chunks)
    /\ Forall (fun c => (start <= c)%N) (runningTotals start chunks).
Proof.
  induction chunks as [|value rest IH]; intros start; cbn.
  - split; constructor.
  - destruct (IH (start + value)%N) as [S F]. split.
    + constructor; assumption.
    + constructor; [lia|]. eapply Forall_impl; [exact F|]. cbn. intros; lia.
Qed.

(** C2. In a streamed transfer of a non-empty file the progress reported
    after each chunk is min(99, max(1, round(countedBytes / totalBytes *
    100))) for the running sum countedBytes of the chunk lengths; these
    values never decrease and lie between 1 and 99; 100 is reported only
    after them, once the store has answered with a success status. *)
Theorem streamed_progress_clamped_nondecreasing (file : File.t)
    (signed : UploadSignResponse.t) (id : jsstring) (net : Network)
    (log : list Action) (chunks : list N) (status : N) :
  File.stream file = Some chunks ->
  File.size file <> 0%N ->
  (totalLength chunks < 2 ^ 53)%N ->
  let reply := put net (length (List.filter isPut log)) in
  result reply = PutResponds status ->
  let counted := runningTotals 0 (take (pulls reply) chunks) in
  let reported :=
    List.map
      (fun countedBytes =>
         Z.min 99
           (Z.max 1
              (Math_round
                 (fmul (fdiv (toNumber countedBytes) (toNumber (File.size file)))
                    (inject_Z 100)))))
      counted in
  uploadFileDirectToGcs file signed (reportProgress id) net log
  = (if ok status then inr tt else inl (transferError status),
     log ++ [Put StreamBody]
         ++ List.map (fun p => Update id (toProgress p)) reported
         ++ (if ok status then [Update id (toProgress 100)] else []))
  /\ StronglySorted Z.le reported
  /\ Forall (fun p => 1 <= p <= 99) reported.
Proof.
  intros Hstream Hsize Hlt reply Hresp counted reported.
  assert (Hex : Forall2 Qeq (countedBytes 0%Q (take (pulls reply) chunks))
                  (List.map toNumber counted)).
  { apply countedBytes_exact; [reflexivity|].
    pose proof (totalLength_take (pulls reply) chunks). lia. }
  assert (Hmap : List.map (fun c => Update id (toProgress (percentOf c (File.size file))))
                   (countedBytes 0%Q (take (pulls reply) chunks))
                 = List.map (fun p => Update id (toProgress p)) reported).
  { unfold reported. rewrite List.map_map.
    change (fun x : N => Update id (toProgress _))
      with (fun x : N => Update id (toProgress (percentOf (toNumber x) (File.size file)))).
    clear -Hex. revert Hex. generalize (countedBytes 0%Q (take (pulls reply) chunks)).
    induction counted as [|c rest IH]; intros l H; inversion H; subst; cbn.
    - reflexivity.
    - f_equal; [|apply IH; assumption].
      f_equal. f_equal. apply percentOf_comp. assumption. }
  split; [|split].
  - rewrite (uploadFileDirectToGcs_streamed file signed id net log chunks Hstream Hsize).
    cbv zeta. fold reply. rewrite Hresp. unfold streamedActions. rewrite Hmap.
    destruct (ok status); cbn [app]; rewrite <- ?app_assoc; cbn [app];
      rewrite ?app_nil_r; reflexivity.
  - unfold reported.
    change (fun countedBytes : N => Z.min 99 _)
      with (fun c : N => percentOf (toNumber c) (File.size file)).
    destruct (runningTotals_sorted (take (pulls reply) chunks) 0%N) as [Hs _].
    fold counted in Hs. clear -Hs Hsize.
    induction Hs as [|c rest Hs IH Hall]; cbn; constructor.
    + exact IH.
    + rewrite List.Forall_forall in Hall |- *. intros p Hp.
      apply List.in_map_iff in Hp as (c' & <- & Hin).
      apply percentOf_mono; [exact Hsize | apply toNumber_nonneg |].
      apply toNumber_le. apply Hall. exact Hin.
  - unfold reported. apply List.Forall_map. apply List.Forall_forall. intros c _.
    apply (percentOf_bounds (toNumber c) (File.size file)).
Qed.

(** ** Grant requester *)

Lemma requestSignedUrl_run (file : File.t) (authStubHeader : jsstring)
    (net : Network) (log : list Action) :
  requestSignedUrl file authStubHeader net log
  = (match grant net (length (List.filter isPostSign log)) with
     | GrantRejects reason => inl reason
     | GrantNotOk response => inl (ErrorObject (readApiError response))
     | GrantOk (inl reason) => inl reason
     | GrantOk (inr signed) => inr signed
     end,
     log ++ [PostSign (File.name file)
               (orElse (File.type file) DEFAULT_CONTENT_TYPE) authStubHeader]).
Proof.
  unfold requestSignedUrl, bind, fetchSign. cbv zeta.
  destruct (grant net (length (List.filter isPostSign log))) as [r|[r|s]|resp];
    reflexivity.
Qed.

(** C8, amended.  When the grant endpoint answers with a non-success
    status, the grant requester throws an error whose message is the
    [error] field of the response body when that field is a string that is
    not empty after trimming white space, and the synthesized message
    "Request failed with {status} {statusText}" in every other case. *)
Theorem grant_refusal_message (file : File.t) (authStubHeader : jsstring)
    (net : Network) (log : list Action) (response : Response) :
  grant net (length (List.filter isPostSign log)) = GrantNotOk response ->
  exists message,
    fst (requestSignedUrl file authStubHeader net log) = inl (ErrorObject message)
    /\ (forall data s,
          json response = Some data ->
          getField data (lit "error") = inr (Some (JString s)) ->
          trim s <> [] -> message = s)
    /\ ((forall data s,
           json response = Some data ->
           getField data (lit "error") = inr (Some (JString s)) ->
           trim s = []) ->
        message = lit "Request failed with " ++ decimal (status response)
                  ++ lit " " ++ statusText response).
Proof.
  intros Hgrant. exists (readApiError response).
  rewrite requestSignedUrl_run, Hgrant. cbn [fst].
  split; [reflexivity|]. unfold readApiError. split.
  - intros data s Hj Hf Ht. rewrite Hj, Hf.
    destruct (trim s) as [|c t] eqn:E; [congruence|]. reflexivity.
  - intros Hnone. destruct (json response) as [data|]; [|reflexivity].
    destruct (getField data (lit "error")) as [e|[[| | |s| |]|]] eqn:Hf; try reflexivity.
    rewrite (Hnone data s eq_refl Hf). reflexivity.
Qed.

(** ** Item worker *)

Lemma uploadSingle_try_run (authStubHeader : jsstring) (item : UploadItem.t)
    (net : Network) (log : list Action) :
  uploadSingle_try authStubHeader item net log
  = match requestSignedUrl (UploadItem.file item) authStubHeader net log with
    | (inl e, log1) => (inl e, log1)
    | (inr signed, log1) =>
        match uploadFileDirectToGcs (UploadItem.file item) signed
                (reportProgress (UploadItem.id item)) net
                (log1 ++ [Update (UploadItem.id item) (toUploading signed)]) with
        | (inl e, log2) => (inl e, log2)
        | (inr _, log2) =>
            (inr tt, log2 ++ [Update (UploadItem.id item) (toSuccess signed)])
        end
    end.
Proof.
  unfold uploadSingle_try. unfold bind at 1.
  destruct (requestSignedUrl _ _ net log) as [[e|signed] log1]; [reflexivity|].
  unfold bind at 1. unfold setItem at 1, perform at 1.
  unfold bind at 1.
  destruct (uploadFileDirectToGcs _ _ _ net _) as [[e|[]] log2]; reflexivity.
Qed.

Lemma uploadSingle_run (authStubHeader : jsstring) (item : UploadItem.t)
    (net : Network) (log : list Action) :
  uploadSingle authStubHeader item net log
  = match uploadSingle_try authStubHeader item net
            (log ++ [Update (UploadItem.id item) toSigning]) with
    | (inl e, log') =>
        (inr tt, log' ++ [Update (UploadItem.id item) (toError (messageOf e))])
    | (inr _, log') => (inr tt, log')
    end.
Proof.
  unfold uploadSingle, bind, tryCatch, setItem, perform.
  destruct (uploadSingle_try _ _ net _) as [[e|[]] log']; reflexivity.
Qed.

(** The promise of [uploadSingle] always fulfils. *)
Lemma uploadSingle_never_throws (authStubHeader : jsstring) (item : UploadItem.t)
    (net : Network) (log : list Action) :
  fst (uploadSingle authStubHeader item net log) = inr tt.
Proof.
  rewrite uploadSingle_run.
  destruct (uploadSingle_try _ _ net _) as [[e|u] log']; reflexivity.
Qed.

(** The keyed update touches no item with another identifier. *)
Lemma updateItem_frame (id : jsstring) (updater : UploadItem.t -> UploadItem.t)
    (current : list UploadItem.t) :
  Forall2
    (fun old new =>
       if decide (UploadItem.id old = id) then new = updater old else new = old)
    current (updateItem id updater current).
Proof.
  induction current as [|item rest IH]; cbn; constructor; [|exact IH].
  destruct (decide (UploadItem.id item = id)); reflexivity.
Qed.

(** C5. When the grant request or the transfer throws, [uploadSingle]
    catches the exception: it returns normally and does exactly one more
    update, which sets the item's status to error and its error to the
    exception's message ("Upload failed" when the thrown value is not an
    Error), keeps its progress, and leaves every item with another
    identifier as it is. *)
Theorem worker_catches_failure (authStubHeader : jsstring) (item : UploadItem.t)
    (net : Network) (log log' : list Action) (e : Thrown) :
  let id := UploadItem.id item in
  let log1 := log ++ [Update id toSigning] in
  (requestSignedUrl (UploadItem.file item) authStubHeader net log1 = (inl e, log')
   \/ exists signed log2,
        requestSignedUrl (UploadItem.file item) authStubHeader net log1
        = (inr signed, log2)
        /\ uploadFileDirectToGcs (UploadItem.file item) signed (reportProgress id)
             net (log2 ++ [Update id (toUploading signed)])
           = (inl e, log')) ->
  let message :=
    match e with ErrorObject m => m | NotAnError => lit "Upload failed" end in
  uploadSingle authStubHeader item net log
  = (inr tt, log' ++ [Update id (toError message)])
  /\ forall current : list UploadItem.t,
       Forall2
         (fun old new =>
            if decide (UploadItem.id old = id)
            then UploadItem.status new = error
                 /\ UploadItem.error new = Some message
                 /\ UploadItem.progress new = UploadItem.progress old
            else new = old)
         current (updateItem id (toError message) current).
Proof.
  intros id log1 Hfail message. split.
  - rewrite uploadSingle_run, uploadSingle_try_run. fold id log1.
    destruct Hfail as [Hg|(signed & log2 & Hg & Ht)].
    + rewrite Hg. reflexivity.
    + rewrite Hg, Ht. reflexivity.
  - intros current. eapply Forall2_impl; [apply updateItem_frame|].
    cbn. intros old new H. destruct (decide (UploadItem.id old = id)); [|exact H].
    subst new. repeat split.
Qed.

(** ** Upload queue store *)

Lemma updateItem_absent (id : jsstring) (updater : UploadItem.t -> UploadItem.t)
    (current : list UploadItem.t) :
  Forall (fun item => UploadItem.id item <> id) current ->
  updateItem id updater current = current.
Proof.
  unfold updateItem.
  induction 1 as [|item rest Hne _ IH]; cbn [List.map]; [reflexivity|].
  rewrite IH. destruct (decide (UploadItem.id item = id)); [contradiction|reflexivity].
Qed.

Lemma items_removeItem (id : jsstring) (s : Store) :
  items (removeItem id s)
  = List.filter (fun item => negb (bool_decide (UploadItem.id item = id))) (items s).
Proof.
  unfold removeItem.
  destruct (List.find _ (items s)) as [[? ? [[|c url]|] ? ? ? ? ?]|]; reflexivity.
Qed.

Lemma removeItem_absent (id : jsstring) (s : Store) :
  Forall (fun item => UploadItem.id item <> id) (items (removeItem id s)).
Proof.
  rewrite items_removeItem. apply List.Forall_forall. intros item Hin.
  apply List.filter_In in Hin as [_ H]. apply negb_true_iff in H.
  apply bool_decide_eq_false in H. exact H.
Qed.

(** C10. When no item of the list has identifier [id], [updateItem id]
    returns the list as it is, whatever the transform; so an update that
    arrives for an item after its removal leaves the store as it is. *)
Theorem updateItem_unknown_id (id : jsstring)
    (updater : UploadItem.t -> UploadItem.t) (current : list UploadItem.t) :
  Forall (fun item => UploadItem.id item <> id) current ->
  updateItem id updater current = current
  /\ forall s : Store,
       processAction (Update id updater) (removeItem id s) = removeItem id s.
Proof.
  intros Habsent. split; [apply updateItem_absent; exact Habsent|].
  intros s. unfold processAction.
  rewrite (updateItem_absent id updater _ (removeItem_absent id s)).
  destruct (removeItem id s); reflexivity.
Qed.

(** C7, amended.  Enqueueing a non-empty batch puts the new items, each
    queued with progress 0 and in the order the files were given, in front
    of the existing items: the resulting list is the new items followed by
    the prior items. *)
Theorem addFiles_prepends (inputFiles : list Added) (s : Store) :
  inputFiles <> [] ->
  items (addFiles inputFiles s) = List.map newItem inputFiles ++ items s
  /\ Forall2
       (fun a item =>
          UploadItem.file item = addedFile a
          /\ UploadItem.id item = uploadId a
          /\ UploadItem.status item = queued
          /\ UploadItem.progress item = 0)
       inputFiles (List.map newItem inputFiles).
Proof.
  intros Hne. split.
  - destruct inputFiles; [contradiction|reflexivity].
  - clear Hne. induction inputFiles as [|a rest IH]; cbn; constructor; auto.
Qed.


Lemma fold_releaseFinished (current : list UploadItem.t) :
  forall (m : gmap (list N) (list N)) (log : list jsstring),
    snd (fold_left releaseFinished current (m, log)) = log ++ releasedUrls current
    /\ forall id,
         Forall (fun item => isFinished item = true -> UploadItem.id item <> id) current ->
         fst (fold_left releaseFinished current (m, log)) !! id = m !! id.
Proof.
  induction current as [|item rest IH]; intros m log; cbn [fold_left].
  - split; [unfold releasedUrls; cbn; rewrite app_nil_r; reflexivity|reflexivity].
  - unfold releaseFinished at 2 4. unfold releasedUrls. cbn [List.filter].
    destruct (isFinished item && truthy (UploadItem.previewUrl item)) eqn:E;
      cbn [fst snd List.map].
    + destruct (IH (delete (UploadItem.id item) m)
                  (log ++ [default [] (UploadItem.previewUrl item)])) as [IH1 IH2].
      split.
      * rewrite IH1. unfold releasedUrls. rewrite <- app_assoc. reflexivity.
      * intros id Hall. inversion Hall as [|? ? Hitem Hrest]; subst.
        rewrite (IH2 id Hrest). apply lookup_delete_ne.
        apply Hitem. apply andb_true_iff in E. tauto.
    + destruct (IH m log) as [IH1 IH2]. split; [exact IH1|].
      intros id Hall. inversion Hall; subst. apply IH2. assumption.
Qed.

(** C9. [clearFinished] keeps, in order and unchanged, exactly the items
    whose status is neither success nor error; it revokes the preview URL
    of each removed item that holds one, and no other URL; and when
    identifiers are distinct, every kept item keeps its entry in the
    preview map. *)
Theorem clearFinished_removes_finished_only (s : Store) :
  NoDup (List.map UploadItem.id (items s)) ->
  items (clearFinished s)
  = List.filter
      (fun item =>
         bool_decide (UploadItem.status item = queued
                      \/ UploadItem.status item = signing
                      \/ UploadItem.status item = uploading))
      (items s)
  /\ revoked (clearFinished s)
     = revoked s
       ++ List.map (fun item => default [] (UploadItem.previewUrl item))
            (List.filter
               (fun item =>
                  bool_decide (UploadItem.status item = success
                               \/ UploadItem.status item = error)
                  && truthy (UploadItem.previewUrl item))
               (items s))
  /\ forall item,
       In item (items s) ->
       UploadItem.status item <> success ->
       UploadItem.status item <> error ->
       In item (items (clearFinished s))
       /\ previewMap (clearFinished s) !! UploadItem.id item
          = previewMap s !! UploadItem.id item.
Proof.
  intros Hnodup. unfold clearFinished. cbv zeta.
  destruct (fold_left releaseFinished (items s) (previewMap s, revoked s))
    as [map' revoked'] eqn:Efold.
  destruct (fold_releaseFinished (items s) (previewMap s) (revoked s)) as [Hlog Hmap].
  rewrite Efold in Hlog, Hmap. cbn [fst snd] in Hlog, Hmap. cbn [items revoked previewMap].
  split; [|split].
  - apply List.filter_ext. intros item.
    destruct (UploadItem.status item); reflexivity.
  - rewrite Hlog. unfold releasedUrls. f_equal. f_equal.
    apply List.filter_ext. intros item. unfold isFinished.
    destruct (UploadItem.status item); reflexivity.
  - intros item Hin Hs He. split.
    + apply List.filter_In. split; [exact Hin|].
      destruct (UploadItem.status item); try reflexivity; contradiction.
    + apply Hmap. apply List.Forall_forall. intros other Hother Hfin Heq.
      assert (other = item).
      { clear -Hnodup Hin Hother Heq. induction (items s) as [|x l IH]; [contradiction|].
        cbn in Hnodup. apply NoDup_cons in Hnodup as [Hx Hl].
        destruct Hin as [->|Hin], Hother as [->|Hother]; auto.
        - exfalso. apply Hx. rewrite <- Heq. apply list_elem_of_In.
          apply List.in_map. exact Hother.
        - exfalso. apply Hx. rewrite Heq. apply list_elem_of_In.
          apply List.in_map. exact Hin. }
      subst other. unfold isFinished in Hfin.
      destruct (UploadItem.status item); try discriminate; contradiction.
Qed.

(** ** The queue under concurrent invocations *)


Lemma streamedActions_low (id : jsstring) (size : N) (count : nat) (chunks : list N) :
  Forall (fun a => ownAction id a /\ lowAction a) (streamedActions id size count chunks).
Proof.
  unfold streamedActions. constructor; [split; exact I|].
  apply List.Forall_map. apply List.Forall_forall. intros c _. split.
  - split; [reflexivity|]. intros item. reflexivity.
  - intros item _. cbn. pose proof (percentOf_bounds c size). lia.
Qed.

(** The log of a transfer: requests and progress below 100, then progress 100
    exactly when the transfer returns. *)
Lemma uploadFileDirectToGcs_shape (file : File.t) (signed : UploadSignResponse.t)
    (id : jsstring) (net : Network) (log : list Action) :
  exists mid,
    Forall (fun a => ownAction id a /\ lowAction a) mid
    /\ uploadFileDirectToGcs file signed (reportProgress id) net log
       = match fst (uploadFileDirectToGcs file signed (reportProgress id) net log) with
         | inr _ => (inr tt, log ++ mid ++ [Update id (toProgress 100)])
         | inl e => (inl e, log ++ mid)
         end.
Proof.
  assert (Hbuf : forall log0 pre,
             Forall (fun a => ownAction id a /\ lowAction a) pre ->
             exists mid,
               Forall (fun a => ownAction id a /\ lowAction a) mid
               /\ bufferedPut (reportProgress id) net (log0 ++ pre)
                  = match fst (bufferedPut (reportProgress id) net (log0 ++ pre)) with
                    | inr _ => (inr tt, log0 ++ mid ++ [Update id (toProgress 100)])
                    | inl e => (inl e, log0 ++ mid)
                    end).
  { intros log0 pre Hpre. exists (pre ++ [Put FileBody]). split.
    - apply Forall_app. split; [exact Hpre|]. constructor; [split; exact I|constructor].
    - rewrite bufferedPut_run.
      destruct (result (put net _)) as [r|st]; cbn [fst].
      + rewrite <- app_assoc. reflexivity.
      + destruct (ok st); cbn [fst]; rewrite <- !app_assoc; reflexivity. }
  destruct (File.stream file) as [chunks|] eqn:Hstream.
  - destruct (N.eq_dec (File.size file) 0%N) as [Hz|Hnz].
    + unfold uploadFileDirectToGcs. rewrite Hstream, Hz. cbn [N.eqb].
      destruct (Hbuf log [] (List.Forall_nil _)) as (mid & Hmid & E).
      rewrite app_nil_r in E. exists mid. split; assumption.
    + rewrite (uploadFileDirectToGcs_streamed file signed id net log chunks Hstream Hnz).
      cbv zeta.
      set (acts := streamedActions id (File.size file) _ chunks).
      pose proof (streamedActions_low id (File.size file)
                    (pulls (put net (length (List.filter isPut log)))) chunks) as Hlow.
      fold acts in Hlow.
      destruct (result (put net (length (List.filter isPut log)))) as [r|st].
      * apply Hbuf. exact Hlow.
      * exists acts. split; [exact Hlow|].
        destruct (ok st); cbn [fst]; rewrite <- ?app_assoc; reflexivity.
  - unfold uploadFileDirectToGcs. rewrite Hstream.
    replace (if (File.size file =? 0)%N then _ else _)
      with (bufferedPut (reportProgress id)) by (destruct (File.size file =? 0)%N; reflexivity).
    destruct (Hbuf log [] (List.Forall_nil _)) as (mid & Hmid & E).
    rewrite app_nil_r in E. exists mid. split; assumption.
Qed.

(** The log of an invocation: actions that keep progress below 100, then,
    when the upload succeeds, the two final updates. *)
Lemma uploadSingle_shape (authStubHeader : jsstring) (item : UploadItem.t)
    (net : Network) :
  exists low final,
    snd (uploadSingle authStubHeader item net []) = low ++ final
    /\ Forall (fun a => ownAction (UploadItem.id item) a /\ lowAction a) low
    /\ (final = [] \/ exists signed, final = finale (UploadItem.id item) signed).
Proof.
  set (id := UploadItem.id item).
  assert (Hsign : ownAction id (Update id toSigning) /\ lowAction (Update id toSigning)).
  { split; [split; [reflexivity|intros; reflexivity]|]. intros it H. cbn. lia. }
  assert (Herr : forall m, ownAction id (Update id (toError m))
                           /\ lowAction (Update id (toError m))).
  { intros m. split; [split; [reflexivity|intros; reflexivity]|]. intros it H. exact H. }
  assert (Hupl : forall s, ownAction id (Update id (toUploading s))
                           /\ lowAction (Update id (toUploading s))).
  { intros s. split; [split; [reflexivity|intros; reflexivity]|]. intros it H. cbn. lia. }
  rewrite uploadSingle_run, uploadSingle_try_run, requestSignedUrl_run. fold id.
  cbn [app].
  set (post := PostSign _ _ _).
  assert (Hpost : ownAction id post /\ lowAction post) by (split; exact I).
  assert (Hlist : forall m,
             Forall (fun a => ownAction id a /\ lowAction a)
               [Update id toSigning; post; Update id (toError m)]).
  { intros m. repeat apply List.Forall_cons; auto. }
  destruct (grant net _) as [r|[r|signed]|resp].
  1,2,4: eexists _, []; rewrite app_nil_r; split; [reflexivity|];
         split; [apply Hlist|left; reflexivity].
  destruct (uploadFileDirectToGcs_shape (UploadItem.file item) signed id net
              [Update id toSigning; post; Update id (toUploading signed)])
    as (mid & Hmid & E).
  rewrite E.
  assert (Hhead : Forall (fun a => ownAction id a /\ lowAction a)
                    [Update id toSigning; post; Update id (toUploading signed)]).
  { repeat apply List.Forall_cons; auto. }
  destruct (fst (uploadFileDirectToGcs _ _ _ _ _)) as [e|u].
  - eexists _, []. rewrite app_nil_r. split; [reflexivity|].
    split; [|left; reflexivity].
    cbn [snd]. rewrite !Forall_app. repeat split; auto.
  - exists ([Update id toSigning; post; Update id (toUploading signed)] ++ mid),
           (finale id signed).
    split; [cbn [snd]; unfold finale; rewrite <- !app_assoc; reflexivity|].
    split; [|right; exists signed; reflexivity].
    rewrite Forall_app. split; assumption.
Qed.

Lemma actOn_own (owner : jsstring) (a : Action) (item : UploadItem.t) :
  ownAction owner a ->
  UploadItem.id (actOn a item) = UploadItem.id item
  /\ (UploadItem.id item <> owner -> actOn a item = item).
Proof.
  destruct a as [| |id updater]; cbn; try (intros _; split; reflexivity).
  intros [-> Hid]. destruct (decide (UploadItem.id item = owner)).
  - split; [apply Hid|contradiction].
  - split; reflexivity.
Qed.

Lemma actOn_low (owner : jsstring) (a : Action) (item : UploadItem.t) :
  lowAction a -> UploadItem.progress item < 100 ->
  UploadItem.progress (actOn a item) < 100.
Proof.
  destruct a as [| |id updater]; cbn; try (intros _ H; exact H).
  intros Hlow H. destruct (decide (UploadItem.id item = id)); auto.
Qed.

Lemma safe_tail (a : Action) (acts : list Action) (item : UploadItem.t) :
  safe (a :: acts) item -> safe acts (actOn a item).
Proof. intros H k. exact (H (S k)). Qed.

Lemma safe_now (acts : list Action) (item : UploadItem.t) :
  safe acts item -> fullOnlyWhenDone item.
Proof. intros H. exact (H O). Qed.

Lemma safe_of_shape (owner : jsstring) (low final : list Action) :
  Forall (fun a => ownAction owner a /\ lowAction a) low ->
  (final = [] \/ exists signed, final = finale owner signed) ->
  forall item,
    UploadItem.id item = owner -> UploadItem.progress item < 100 ->
    safe (low ++ final) item.
Proof.
  intros Hlow Hfinal. induction Hlow as [|a low [Hown Hl] _ IH]; intros item Hid Hp.
  - cbn [app]. intros k. unfold fullOnlyWhenDone.
    destruct Hfinal as [->|[signed ->]].
    + rewrite take_nil. cbn. lia.
    + subst owner. unfold finale.
      destruct k as [|[|k]]; cbn [take fold_left actOn];
        rewrite ?take_nil; cbn [fold_left];
        repeat (match goal with
                | |- context [decide (?x = ?x)] =>
                    rewrite (decide_True (P := x = x)) by reflexivity
                end; cbn [UploadItem.id toProgress]).
      * lia.
      * intros _. left. reflexivity.
      * intros _. right. reflexivity.
  - intros [|k].
    + cbn. unfold fullOnlyWhenDone. lia.
    + cbn [app take fold_left]. apply IH.
      * destruct (actOn_own owner a item Hown) as [E _]. congruence.
      * apply (actOn_low owner); assumption.
Qed.

Lemma items_processAction (a : Action) (s : Store) :
  items (processAction a s) = List.map (actOn a) (items s).
Proof. destruct a; cbn; rewrite ?List.map_id; reflexivity. Qed.

Lemma items_addFiles (inputFiles : list Added) (s : Store) :
  items (addFiles inputFiles s) = List.map newItem inputFiles ++ items s.
Proof. destruct inputFiles; reflexivity. Qed.

Lemma items_clearFinished (s : Store) :
  items (clearFinished s)
  = List.filter
      (fun item =>
         negb (bool_decide (UploadItem.status item = success))
         && negb (bool_decide (UploadItem.status item = error)))
      (items s).
Proof.
  unfold clearFinished. cbv zeta.
  destruct (fold_left releaseFinished (items s) (previewMap s, revoked s)).
  reflexivity.
Qed.

Section HookFacts.
Variable authStubHeader : jsstring.


Lemma spawn_own (a : Added * Network) :
  Forall (ownAction (subject (spawn authStubHeader a)))
    (pending (spawn authStubHeader a)).
Proof.
  destruct (uploadSingle_shape authStubHeader (newItem (fst a)) (snd a))
    as (low & final & E & Hlow & Hfinal).
  unfold spawn. cbn [subject pending]. rewrite E.
  change (UploadItem.id (newItem (fst a))) with (uploadId (fst a)) in *.
  apply Forall_app. split.
  - eapply Forall_impl; [exact Hlow|]. cbn. tauto.
  - destruct Hfinal as [->|[signed ->]]; [constructor|].
    repeat constructor; intros; reflexivity.
Qed.

Lemma spawn_safe (a : Added * Network) :
  safe (pending (spawn authStubHeader a)) (newItem (fst a)).
Proof.
  destruct (uploadSingle_shape authStubHeader (newItem (fst a)) (snd a))
    as (low & final & E & Hlow & Hfinal).
  unfold spawn. cbn [pending]. rewrite E.
  apply (safe_of_shape (UploadItem.id (newItem (fst a)))); auto.
  cbn. lia.
Qed.

Lemma invariant_initial : invariant initialSystem.
Proof. split; cbn; [constructor|constructor|contradiction]. Qed.

Lemma invariant_step (e : Event) (sys sys' : System) :
  invariant sys -> step authStubHeader e sys = Some sys' -> invariant sys'.
Proof.
  intros [Hsub Hown Hsafe] Hstep. destruct e as [inputFiles|i|id|]; cbn in Hstep.
  - (* AddFiles *)
    destruct (decide (freshIds inputFiles sys)) as [[Hnd Hfresh]|]; [|discriminate].
    injection Hstep as <-. split; cbn [tasks store].
    + rewrite List.map_app, List.map_map. apply NoDup_app. split; [exact Hsub|].
      split; [|exact Hnd].
      intros o Ho Hin. apply list_elem_of_In, List.in_map_iff in Hin as (a & <- & Ha).
      rewrite List.Forall_forall in Hfresh. exact (Hfresh a Ha Ho).
    + apply Forall_app. split; [exact Hown|].
      apply List.Forall_map. apply List.Forall_forall. intros a _. apply spawn_own.
    + intros item Hin. rewrite items_addFiles in Hin.
      apply List.in_app_or in Hin as [Hnew|Hold].
      * rewrite List.map_map in Hnew.
        apply List.in_map_iff in Hnew as (a & <- & Ha).
        exists (spawn authStubHeader a). split; [|split].
        -- apply List.in_or_app. right. apply List.in_map. exact Ha.
        -- reflexivity.
        -- apply spawn_safe.
      * destruct (Hsafe item Hold) as (t & Ht & Hs). exists t.
        split; [apply List.in_or_app; left; exact Ht|exact Hs].
  - (* Advance *)
    destruct (tasks sys !! i) as [[o [|a rest]]|] eqn:Hi; try discriminate.
    injection Hstep as <-.
    assert (Hlen : (i < length (tasks sys))%nat) by (eapply lookup_lt_Some; eauto).
    assert (Hsubj : List.map subject (<[i := mkTask o rest]> (tasks sys))
                    = List.map subject (tasks sys)).
    { change (List.map subject) with (fmap (M := list) subject).
      rewrite list_fmap_insert. apply list_insert_id.
      rewrite list_lookup_fmap, Hi. reflexivity. }
    assert (Howna : Forall (ownAction o) (a :: rest)).
    { rewrite Forall_lookup in Hown. exact (Hown i _ Hi). }
    apply Forall_cons in Howna as [Ha Hrest].
    split; cbn [tasks store].
    + rewrite Hsubj. exact Hsub.
    + apply Forall_insert; [exact Hown|exact Hrest].
    + intros item' Hin. rewrite items_processAction in Hin.
      apply List.in_map_iff in Hin as (item & <- & Hin).
      destruct (Hsafe item Hin) as (t & Ht & Hst & Hs).
      destruct (actOn_own o a item Ha) as [Eid Hother].
      apply list_elem_of_In, list_elem_of_lookup in Ht as [j Hj].
      destruct (decide (i = j)) as [<-|Hij].
      * rewrite Hi in Hj. injection Hj as <-. cbn [subject pending] in *.
        exists (mkTask o rest). split; [|split].
        -- apply list_elem_of_In, list_elem_of_lookup. exists i.
           apply list_lookup_insert_eq. exact Hlen.
        -- cbn. congruence.
        -- apply safe_tail. exact Hs.
      * assert (UploadItem.id item <> o).
        { intros Heq. apply Hij.
          apply (NoDup_lookup _ i j o Hsub);
            change (List.map subject) with (fmap (M := list) subject);
            rewrite list_lookup_fmap; [rewrite Hi|rewrite Hj]; cbn; congruence. }
        rewrite (Hother H). exists t. split; [|split; assumption].
        apply list_elem_of_In, list_elem_of_lookup. exists j.
        rewrite list_lookup_insert_ne by exact Hij. exact Hj.
  - (* RemoveItem *)
    injection Hstep as <-. split; cbn [tasks store]; try assumption.
    intros item Hin. rewrite items_removeItem in Hin.
    apply List.filter_In in Hin as [Hin _]. auto.
  - (* ClearFinished *)
    injection Hstep as <-. split; cbn [tasks store]; try assumption.
    intros item Hin. rewrite items_clearFinished in Hin.
    apply List.filter_In in Hin as [Hin _]. auto.
Qed.

Lemma invariant_run (events : list Event) :
  forall sys sys',
    invariant sys -> run authStubHeader events sys = Some sys' -> invariant sys'.
Proof.
  induction events as [|e events IH]; intros sys sys' Hinv Hrun; cbn in Hrun.
  - injection Hrun as <-. exact Hinv.
  - destruct (step authStubHeader e sys) as [sys1|] eqn:Hstep; [|discriminate].
    eapply IH; [|exact Hrun]. eapply invariant_step; eauto.
Qed.

(** C1, amended.  In every reachable state of the queue, an item whose
    progress is 100 has status uploading or success: uploading from the
    update of [onProgress(100)] until the update that records success,
    success from then on. *)
Theorem progress_100_implies_uploading_or_success (sys : System)
    (item : UploadItem.t) :
  reachable authStubHeader sys ->
  In item (items (store sys)) ->
  UploadItem.progress item = 100 ->
  UploadItem.status item = uploading \/ UploadItem.status item = success.
Proof.
  intros [events Hrun] Hin.
  pose proof (invariant_run events _ _ invariant_initial Hrun) as Hinv.
  destruct (inv_safe sys Hinv item Hin) as (t & _ & _ & Hs).
  exact (safe_now _ _ Hs).
Qed.
End HookFacts.

(** ** Worker pool *)

Section PoolFacts.
Context {T : Type}.
Variable entries : list (option T).
Variable concurrency : Z.

Local Abbreviation definedAt := (definedAt entries).
Local Abbreviation remaining := (remaining entries).
Local Abbreviation poolInvariant := (poolInvariant entries concurrency).


Local Open Scope nat_scope.

(** One run of the loop claims the next [k] indices in order and either
    reaches the end of the list, having met undefined entries only, or
    awaits the worker on the last index it claimed, the only defined one. *)
Lemma whileLoop_spec (w : nat) :
  forall (rest : list (option T)) (p : Pool),
    nextIndex p <= length entries ->
    drop (nextIndex p) entries = rest ->
    exists (k : nat) (t' : Thread),
      let p' := whileLoop w rest p in
      nextIndex p' = nextIndex p + k
      /\ nextIndex p + k <= length entries
      /\ claims p' = claims p ++ List.map (pair w) (seq (nextIndex p) k)
      /\ threads p' = <[w := t']> (threads p)
      /\ settled p' = settled p
      /\ invoked p' = invoked p ++ List.filter definedAt (seq (nextIndex p) k)
      /\ ((t' = Done /\ nextIndex p + k = length entries
           /\ List.filter definedAt (seq (nextIndex p) k) = [])
          \/ (t' = Awaiting (nextIndex p + k - 1) /\ 1 <= k
              /\ List.filter definedAt (seq (nextIndex p) k)
                 = [nextIndex p + k - 1])).
Proof.
  induction rest as [|current rest IH]; intros p Hle Hdrop.
  - exists 0, Done. cbn.
    assert (length entries <= nextIndex p).
    { apply drop_nil_inv in Hdrop. exact Hdrop. }
    rewrite !app_nil_r, Nat.add_0_r. repeat split; try lia.
    left. repeat split. lia.
  - assert (Hcur : entries !! nextIndex p = Some current).
    { pose proof (lookup_drop entries (nextIndex p) 0) as H0.
      rewrite Hdrop, Nat.add_0_r in H0. symmetry. exact H0. }
    assert (Hlt : nextIndex p < length entries) by (eapply lookup_lt_Some; eauto).
    assert (Hrest : drop (nextIndex p + 1) entries = rest).
    { change rest with (drop 1 (current :: rest)). rewrite <- Hdrop, drop_drop.
      reflexivity. }
    destruct current as [x|].
    + exists 1, (Awaiting (nextIndex p)). cbn.
      unfold definedAt. rewrite Hcur.
      replace (nextIndex p + 1 - 1) with (nextIndex p) by lia.
      repeat split; try lia. right. repeat split. lia.
    + cbn [whileLoop].
      set (claimed := {| nextIndex := nextIndex p + 1;
                         threads := threads p;
                         claims := claims p ++ [(w, nextIndex p)];
                         invoked := invoked p;
                         settled := settled p |}).
      destruct (IH claimed) as (k & t' & Hn & Hb & Hc & Ht & Hs & Hi & Hend);
        [cbn; lia|exact Hrest|].
      cbn [nextIndex threads claims invoked settled claimed] in *.
      exists (S k), t'. cbv zeta. fold claimed.
      assert (Hdef : definedAt (nextIndex p) = false)
        by (unfold definedAt; rewrite Hcur; reflexivity).
      rewrite Hn, Hc, Ht, Hs, Hi. cbn [seq List.map List.filter].
      rewrite Hdef.
      replace (S (nextIndex p)) with (nextIndex p + 1) by lia.
      rewrite <- app_assoc. cbn [app].
      repeat split; try lia.
      destruct Hend as [(-> & He & Hf)|(-> & Hk & Hf)]; [left|right];
        rewrite Hf; repeat split; first [lia | reflexivity | (f_equal; lia)].
Qed.


Lemma poolInvariant_initial : poolInvariant (initialPool entries concurrency).
Proof.
  split; cbn; try reflexivity; try lia; try contradiction.
  - apply length_replicate.
  - constructor.
  - intros Hin. apply list_elem_of_In, elem_of_replicate in Hin as [? _]. discriminate.
Qed.

Lemma list_sum_insert (l : list Thread) (w : nat) (t t' : Thread) :
  l !! w = Some t ->
  list_sum (List.map weight (<[w := t']> l)) + weight t
  = list_sum (List.map weight l) + weight t'.
Proof.
  revert w. induction l as [|x l IH]; intros [|w] H; try discriminate.
  - injection H as ->. cbn. lia.
  - specialize (IH w H). cbn in H |- *.
    change (list_sum (List.map weight (<[w:=t']> l)) + weight t
            = list_sum (List.map weight l) + weight t') in IH.
    change (weight x + list_sum (List.map weight (<[w:=t']> l)) + weight t
            = weight x + list_sum (List.map weight l) + weight t').
    lia.
Qed.

Lemma in_insert (l : list Thread) (w : nat) (t' x : Thread) :
  In x (<[w := t']> l) -> x = t' \/ exists j, j <> w /\ l !! j = Some x.
Proof.
  intros Hin. apply list_elem_of_In, list_elem_of_lookup in Hin as [j Hj].
  destruct (decide (j = w)) as [->|Hne].
  - left. apply list_lookup_insert_Some in Hj as [(_ & -> & _)|[? _]]; congruence.
  - right. exists j. split; [exact Hne|].
    rewrite list_lookup_insert_ne in Hj by congruence. exact Hj.
Qed.

Lemma resume_spec (w : nat) (p p' : Pool) :
  poolInvariant p -> resume entries w p = Some p' ->
  poolInvariant p' /\ remaining p' < remaining p.
Proof.
  intros [Hth Hcur Hcl Hcs Hinv Hset Hdone] Hres. unfold resume in Hres.
  destruct (threads p !! w) as [t|] eqn:Hw; [|discriminate].
  assert (Hwlt : w < length (threads p)) by (eapply lookup_lt_Some; eauto).
  set (q := {| nextIndex := nextIndex p; threads := threads p; claims := claims p;
               invoked := invoked p;
               settled := match t with Awaiting i => settled p ++ [i] | _ => settled p end |}).
  assert (Hp' : t <> Done /\ p' = whileLoop w (drop (nextIndex p) entries) q).
  { destruct t; [| |discriminate]; injection Hres as <-; split; try discriminate.
    - destruct p; reflexivity.
    - reflexivity. }
  destruct Hp' as [HnotDone ->]. clear Hres.
  destruct (whileLoop_spec w (drop (nextIndex q) entries) q Hcur eq_refl)
    as (k & t' & Hn & Hb & Hc & Ht & Hs & Hi & Hend).
  cbv zeta in *. change (nextIndex q) with (nextIndex p) in *.
  set (p' := whileLoop w (drop (nextIndex p) entries) q) in *.
  cbn [q threads claims invoked settled] in Hc, Ht, Hs, Hi.
  split.
  - split.
    + rewrite Ht, length_insert. exact Hth.
    + lia.
    + rewrite Hc, Hn, List.map_app, Hcl, List.map_map. cbn [snd].
      rewrite List.map_id, seq_app. reflexivity.
    + rewrite Hc, Ht, length_insert. apply Forall_app. split; [exact Hcs|].
      apply List.Forall_map. apply List.Forall_forall. intros; exact Hwlt.
    + rewrite Hi, Hn, Hinv, seq_app, List.filter_app. reflexivity.
    + intros i Hin. rewrite Hi in Hin. rewrite Hs, Ht.
      apply List.in_app_or in Hin as [Hold|Hnew].
      * destruct (Hset i Hold) as [Hsd|Haw].
        -- left. destruct t; auto. apply List.in_or_app. left. exact Hsd.
        -- apply list_elem_of_In, list_elem_of_lookup in Haw as [j Hj].
           destruct (decide (j = w)) as [->|Hne].
           ++ left. rewrite Hw in Hj. injection Hj as ->.
              apply List.in_or_app. right. left. reflexivity.
           ++ right. apply list_elem_of_In, list_elem_of_lookup. exists j.
              rewrite list_lookup_insert_ne by congruence. exact Hj.
      * right. destruct Hend as [(_ & _ & Hf)|(-> & _ & Hf)]; rewrite Hf in Hnew.
        -- contradiction.
        -- destruct Hnew as [<-|[]].
           apply list_elem_of_In, list_elem_of_lookup. exists w.
           apply list_lookup_insert_eq. exact Hwlt.
    + intros Hin. rewrite Ht in Hin. apply in_insert in Hin as [Heq|(j & Hj & Hl)].
      * destruct Hend as [(_ & He & _)|(-> & _ & _)]; [lia|discriminate].
      * assert (nextIndex p = length entries).
        { apply Hdone. apply list_elem_of_In, list_elem_of_lookup. eauto. }
        lia.
  - unfold remaining. rewrite Ht, Hn.
    pose proof (list_sum_insert (threads p) w t t' Hw) as Hsum.
    assert (weight t = 1) by (destruct t; try reflexivity; congruence).
    destruct Hend as [(-> & _ & _)|(-> & Hk & _)]; cbn [weight] in Hsum; lia.
Qed.

Lemma schedule_invariant (ws : list nat) :
  forall p p',
    poolInvariant p -> schedule entries ws p = Some p' ->
    poolInvariant p' /\ remaining p' + length ws <= remaining p.
Proof.
  induction ws as [|w ws IH]; intros p p' Hinv Hrun; cbn in Hrun.
  - injection Hrun as <-. split; [exact Hinv|cbn; lia].
  - destruct (resume entries w p) as [p1|] eqn:Hres; [|discriminate].
    destruct (resume_spec w p p1 Hinv Hres) as [Hinv1 Hlt].
    destruct (IH p1 p' Hinv1 Hrun) as [Hinv' Hle]. split; [exact Hinv'|cbn; lia].
Qed.


End PoolFacts.

(** ** Result reconciler *)



Lemma reconcile_ref (items : list UploadItem.t) (r : Reconciler) :
  uploadedSignatureRef (reconcile true items r)
  = uploadedSignature (uploadedFiles items).
Proof.
  unfold reconcile. cbn [negb].
  destruct (bool_decide _) eqn:E; [|reflexivity].
  apply bool_decide_eq_true in E. exact E.
Qed.





(** ** The scenarios *)

(** C2 on the ten-byte image, pulled to its end and stored: the transfer
    reports 30, 60, 99 and then 100. *)
Lemma streamed_progress_sample :
  uploadFileDirectToGcs samplePng sampleSigned (reportProgress (lit "id-1"))
    (network (GrantOk (inr sampleSigned)) [{| pulls := 3; result := PutResponds 200 |}])
    []
  = (inr tt,
     [Put StreamBody;
      Update (lit "id-1") (toProgress 30);
      Update (lit "id-1") (toProgress 60);
      Update (lit "id-1") (toProgress 99);
      Update (lit "id-1") (toProgress 100)]).
Proof.
  pose proof (streamed_progress_clamped_nondecreasing samplePng sampleSigned
                (lit "id-1")
                (network (GrantOk (inr sampleSigned))
                   [{| pulls := 3; result := PutResponds 200 |}])
                [] [3; 3; 4]%N 200%N) as H.
  destruct H as [E _]; [reflexivity|discriminate|reflexivity|reflexivity|].
  vm_compute in E |- *. exact E.
Defined.


(** C8: the 401 answer with body {"error":"Missing authentication context"}
    yields this message as it is. *)
Lemma unauthorized_sample :
  fst (requestSignedUrl samplePng DEFAULT_AUTH_STUB_HEADER
         (network (GrantNotOk unauthorized) []) [])
  = inl (ErrorObject (lit "Missing authentication context")).
Proof.
  destruct (grant_refusal_message samplePng DEFAULT_AUTH_STUB_HEADER
              (network (GrantNotOk unauthorized) []) [] unauthorized eq_refl)
    as (message & Hthrow & Hfield & _).
  rewrite Hthrow. f_equal. f_equal.
  apply (Hfield (JObject [(lit "error", JString (lit "Missing authentication context"))])
           (lit "Missing authentication context")); [reflexivity|reflexivity|].
  vm_compute. discriminate.
Defined.

(** C8 as stated fails on a white-space message: the field is a non-empty
    string, the message is the synthesized one. *)
Lemma blank_error_field_is_not_the_message :
  ~ (forall (file : File.t) (authStubHeader : jsstring) (net : Network)
            (response : Response) (data : Json) (s : jsstring),
       grant net 0%nat = GrantNotOk response ->
       json response = Some data ->
       getField data (lit "error") = inr (Some (JString s)) ->
       s <> [] ->
       fst (requestSignedUrl file authStubHeader net []) = inl (ErrorObject s)).
Proof.
  intros claim.
  specialize (claim samplePng DEFAULT_AUTH_STUB_HEADER
                (network (GrantNotOk blankError) []) blankError
                (JObject [(lit "error", JString (lit " "))]) (lit " ")
                eq_refl eq_refl eq_refl).
  assert (H : lit " " <> []) by (vm_compute; discriminate).
  specialize (claim H). vm_compute in claim. discriminate claim.
Qed.

(** C5 on the refused grant: the worker returns, and its last action sets
    the error. *)
Lemma refused_grant_sample :
  uploadSingle DEFAULT_AUTH_STUB_HEADER (newItem addedPng)
    (network (GrantNotOk unauthorized) []) []
  = (inr tt,
     [Update (lit "id-1") toSigning;
      PostSign (lit "a.png") (lit "image/png") DEFAULT_AUTH_STUB_HEADER;
      Update (lit "id-1") (toError (lit "Missing authentication context"))]).
Proof.
  pose proof (worker_catches_failure DEFAULT_AUTH_STUB_HEADER (newItem addedPng)
                (network (GrantNotOk unauthorized) []) []
                [Update (lit "id-1") toSigning;
                 PostSign (lit "a.png") (lit "image/png") DEFAULT_AUTH_STUB_HEADER]
                (ErrorObject (lit "Missing authentication context"))) as H.
  destruct H as [E _]; [left; reflexivity|]. exact E.
Defined.

(** C10 on a queue that holds the image only: an update for another
    identifier changes nothing. *)
Lemma unknown_id_sample :
  updateItem (lit "id-9") (toProgress 50) [newItem addedPng] = [newItem addedPng].
Proof.
  apply (updateItem_unknown_id (lit "id-9") (toProgress 50) [newItem addedPng]).
  repeat constructor. vm_compute. discriminate.
Defined.

(** C7 as stated fails: the new item comes first. *)
Lemma addFiles_does_not_append :
  ~ (forall (inputFiles : list Added) (s : Store),
       inputFiles <> [] ->
       items (addFiles inputFiles s) = items s ++ List.map newItem inputFiles).
Proof.
  intros claim.
  specialize (claim [addedEmpty]
                {| items := [newItem addedPng]; previewMap := ∅; revoked := [] |}).
  assert (H : [addedEmpty] <> []) by discriminate.
  specialize (claim H). vm_compute in claim. discriminate claim.
Qed.

(** C7, amended, on the same queue. *)
Lemma addFiles_sample :
  items (addFiles [addedEmpty]
           {| items := [newItem addedPng]; previewMap := ∅; revoked := [] |})
  = [newItem addedEmpty; newItem addedPng].
Proof.
  apply (addFiles_prepends [addedEmpty]
           {| items := [newItem addedPng]; previewMap := ∅; revoked := [] |}).
  discriminate.
Defined.

(** C9 on a queue with a successful image and a queued file. *)
Lemma clearFinished_sample :
  items (clearFinished
           {| items := [toSuccess sampleSigned (newItem addedPng); newItem addedEmpty];
              previewMap := {[ lit "id-1" := lit "blob:b-1" ]};
              revoked := [] |})
  = [newItem addedEmpty].
Proof.
  apply (clearFinished_removes_finished_only
           {| items := [toSuccess sampleSigned (newItem addedPng); newItem addedEmpty];
              previewMap := {[ lit "id-1" := lit "blob:b-1" ]};
              revoked := [] |}).
  cbn [items List.map]. apply NoDup_cons. split.
  - intros H. apply list_elem_of_singleton in H. vm_compute in H. discriminate H.
  - apply NoDup_singleton.
Defined.

(** C1 as stated fails: after the update of [onProgress(100)] the item is
    at 100 and still uploading. *)
Lemma progress_100_while_uploading :
  ~ (forall (sys : System) (item : UploadItem.t),
       reachable DEFAULT_AUTH_STUB_HEADER sys ->
       In item (items (store sys)) ->
       UploadItem.progress item = 100 ->
       UploadItem.status item = success).
Proof.
  intros claim.
  destruct (run DEFAULT_AUTH_STUB_HEADER beforeSuccess initialSystem) as [sys|] eqn:Hrun;
    [|vm_compute in Hrun; discriminate Hrun].
  assert (Hitems : items (store sys) = [toProgress 100 (toUploading sampleSigned
                                           (toSigning (newItem addedEmpty)))]).
  { assert (E : option_map (fun s => items (store s))
                  (run DEFAULT_AUTH_STUB_HEADER beforeSuccess initialSystem)
                = Some [toProgress 100 (toUploading sampleSigned
                                          (toSigning (newItem addedEmpty)))])
      by (vm_compute; reflexivity).
    rewrite Hrun in E. injection E as E. exact E. }
  specialize (claim sys (toProgress 100 (toUploading sampleSigned
                                            (toSigning (newItem addedEmpty))))).
  assert (Hreach : reachable DEFAULT_AUTH_STUB_HEADER sys) by (exists beforeSuccess; exact Hrun).
  specialize (claim Hreach). rewrite Hitems in claim.
  specialize (claim (or_introl eq_refl) eq_refl). discriminate claim.
Qed.

(** C1, amended, on the same state. *)
Lemma uploading_at_100_sample :
  let item := toProgress 100 (toUploading sampleSigned (toSigning (newItem addedEmpty))) in
  UploadItem.status item = uploading \/ UploadItem.status item = success.
Proof.
  intros item.
  destruct (run DEFAULT_AUTH_STUB_HEADER beforeSuccess initialSystem) as [sys|] eqn:Hrun;
    [|vm_compute in Hrun; discriminate Hrun].
  assert (Hitems : items (store sys) = [item]).
  { assert (E : option_map (fun s => items (store s))
                  (run DEFAULT_AUTH_STUB_HEADER beforeSuccess initialSystem)
                = Some [item])
      by (vm_compute; reflexivity).
    rewrite Hrun in E. injection E as E. exact E. }
  apply (progress_100_implies_uploading_or_success DEFAULT_AUTH_STUB_HEADER sys item).
  - exists beforeSuccess. exact Hrun.
  - rewrite Hitems. left. reflexivity.
  - reflexivity.
Defined.



(** The image is added, granted, streamed and stored: it ends successful at
    100 with its public URL, and the observer is notified once, with one
    entry. *)
Example upload_succeeds :
  option_map
    (fun sys =>
       (List.map
          (fun item =>
             (UploadItem.status item, UploadItem.progress item,
              UploadItem.publicUrl item))
          (items (store sys)),
        List.map (List.map UploadedFile.objectName)
          (notifications (reconcile true (items (store sys)) initialReconciler))))
    (run DEFAULT_AUTH_STUB_HEADER
       (AddFiles [(addedPng,
                   network (GrantOk (inr sampleSigned))
                     [{| pulls := 3; result := PutResponds 200 |}])]
          :: replicate 9 (Advance 0))
       initialSystem)
  = Some ([(success, 100, Some (lit "https://storage.googleapis.com/b/uploads/u1/x-a.png"))],
          [[lit "uploads/u1/x-a.png"]]).
Proof. vm_compute. reflexivity. Qed.

(** The grant is refused with 401: the item ends in error with the message
    of the body, at the progress it had, and nobody is notified. *)
Example upload_unauthorized :
  option_map
    (fun sys =>
       (List.map
          (fun item =>
             (UploadItem.status item, UploadItem.progress item,
              UploadItem.error item))
          (items (store sys)),
        notifications (reconcile true (items (store sys)) initialReconciler)))
    (run DEFAULT_AUTH_STUB_HEADER
       (AddFiles [(addedPng, network (GrantNotOk unauthorized) [])]
          :: replicate 3 (Advance 0))
       initialSystem)
  = Some ([(error, 5, Some (lit "Missing authentication context"))], []).
Proof. vm_compute. reflexivity. Qed.

(** * Further properties *)

(** ** Worker pool: calls in flight, and the hook's use of the pool *)

Section PoolMore.
Context {T : Type}.
Variable entries : list (option T).
Variable concurrency : Z.

Local Open Scope nat_scope.

Lemma list_sum_insert_by (f : Thread -> nat) (l : list Thread) (w : nat)
    (t t' : Thread) :
  l !! w = Some t ->
  list_sum (List.map f (<[w := t']> l)) + f t = list_sum (List.map f l) + f t'.
Proof.
  revert w. induction l as [|x l IH]; intros [|w] H; try discriminate.
  - injection H as ->. cbn. lia.
  - specialize (IH w H). cbn in H |- *.
    change (list_sum (List.map f (<[w:=t']> l)) + f t
            = list_sum (List.map f l) + f t') in IH.
    change (f x + list_sum (List.map f (<[w:=t']> l)) + f t
            = f x + list_sum (List.map f l) + f t').
    lia.
Qed.

Lemma list_sum_le_length (f : Thread -> nat) (l : list Thread) :
  (forall t, f t <= 1) -> list_sum (List.map f l) <= length l.
Proof.
  intros Hf. induction l as [|x l IH]; cbn; [lia|]. specialize (Hf x).
  change (f x + list_sum (List.map f l) <= S (length l)). lia.
Qed.

(** The calls of the worker are the completed ones and those awaited. *)
Lemma resume_in_flight (w : nat) (p p' : Pool) :
  poolInvariant entries concurrency p ->
  resume entries w p = Some p' ->
  length (invoked p) = length (settled p) + inFlight p ->
  length (invoked p') = length (settled p') + inFlight p'.
Proof.
  intros Hinv Hres Hcount. unfold resume in Hres.
  destruct (threads p !! w) as [t|] eqn:Hw; [|discriminate].
  set (q := {| nextIndex := nextIndex p; threads := threads p; claims := claims p;
               invoked := invoked p;
               settled := match t with Awaiting i => settled p ++ [i] | _ => settled p end |}).
  assert (Hp' : t <> Done /\ p' = whileLoop w (drop (nextIndex p) entries) q).
  { destruct t; [| |discriminate]; injection Hres as <-; split; try discriminate.
    - destruct p; reflexivity.
    - reflexivity. }
  destruct Hp' as [HnotDone ->]. clear Hres.
  destruct (whileLoop_spec entries w (drop (nextIndex q) entries) q
              (pool_cursor _ _ _ Hinv) eq_refl)
    as (k & t' & _ & _ & _ & Ht & Hs & Hi & Hend).
  cbv zeta in *. change (nextIndex q) with (nextIndex p) in *.
  cbn [q threads claims invoked settled] in Ht, Hs, Hi.
  unfold inFlight in *. rewrite Ht, Hs, Hi, length_app.
  pose proof (list_sum_insert_by awaiting (threads p) w t t' Hw) as Hsum.
  destruct Hend as [(-> & _ & Hf)|(-> & _ & Hf)]; rewrite Hf; cbn [awaiting length] in *;
    destruct t; try congruence; cbn [awaiting] in Hsum; rewrite ?length_app; cbn [length]; lia.
Qed.

Lemma schedule_in_flight (ws : list nat) :
  forall p p',
    poolInvariant entries concurrency p ->
    schedule entries ws p = Some p' ->
    length (invoked p) = length (settled p) + inFlight p ->
    length (invoked p') = length (settled p') + inFlight p'.
Proof.
  induction ws as [|w ws IH]; intros p p' Hinv Hrun Hcount; cbn in Hrun.
  - injection Hrun as <-. exact Hcount.
  - destruct (resume entries w p) as [p1|] eqn:Hres; [|discriminate].
    destruct (resume_spec entries concurrency w p p1 Hinv Hres) as [Hinv1 _].
    apply (IH p1 p' Hinv1 Hrun). exact (resume_in_flight w p p1 Hinv Hres Hcount).
Qed.

Lemma schedule_counts (ws : list nat) (p : Pool) :
  schedule entries ws (initialPool entries concurrency) = Some p ->
  length (invoked p) = length (settled p) + inFlight p.
Proof.
  intros Hrun.
  eapply schedule_in_flight; [apply poolInvariant_initial|exact Hrun|].
  cbn. unfold inFlight. cbn [threads initialPool].
  induction (workerCount concurrency (length entries)) as [|n IHn]; [reflexivity|].
  cbn. exact IHn.
Qed.

(** X1. However the threads interleave, the calls of the worker that have
    started and not completed are never more than max(1, min(concurrency,
    N)): their number is that of the threads awaiting a call. *)
Theorem pool_in_flight_bounded (ws : list nat) (p : Pool) :
  schedule entries ws (initialPool entries concurrency) = Some p ->
  length (invoked p) = length (settled p) + inFlight p
  /\ length (invoked p) - length (settled p)
     <= Z.to_nat (Z.max 1 (Z.min concurrency (Z.of_nat (length entries)))).
Proof.
  intros Hrun.
  destruct (schedule_invariant entries concurrency ws _ p
              (poolInvariant_initial entries concurrency) Hrun) as [Hinv _].
  pose proof (schedule_counts ws p Hrun) as Hcount.
  split; [exact Hcount|].
  pose proof (list_sum_le_length awaiting (threads p)) as Hle.
  unfold inFlight in Hcount. rewrite (pool_threads _ _ _ Hinv) in Hle.
  unfold workerCount in Hle.
  assert (list_sum (List.map awaiting (threads p))
          <= Z.to_nat (Z.max 1 (Z.min concurrency (Z.of_nat (length entries))))).
  { apply Hle. intros []; cbn; lia. }
  lia.
Qed.

(** X2. No run of the pool has more than max(1, min(concurrency, N)) + N
    resumptions of its threads. *)
Theorem pool_schedule_bounded (ws : list nat) (p : Pool) :
  schedule entries ws (initialPool entries concurrency) = Some p ->
  length ws
  <= Z.to_nat (Z.max 1 (Z.min concurrency (Z.of_nat (length entries))))
     + length entries.
Proof.
  intros Hrun.
  destruct (schedule_invariant entries concurrency ws _ p
              (poolInvariant_initial entries concurrency) Hrun) as [_ Hle].
  unfold remaining in Hle. cbn [threads nextIndex initialPool] in Hle.
  assert (Hready : forall n, list_sum (List.map weight (replicate n Ready)) = n).
  { clear. induction n as [|n IHn]; [reflexivity|].
    cbn [replicate List.map list_sum foldr weight]. unfold list_sum in IHn.
    rewrite IHn. reflexivity. }
  rewrite Hready in Hle. unfold workerCount in *. lia.
Qed.
End PoolMore.


(** X1 midway through the run of the sample pool: one call in flight. *)
Lemma pool_in_flight_sample :
  (length (invoked poolMidway) = length (settled poolMidway) + inFlight poolMidway)%nat
  /\ (length (invoked poolMidway) - length (settled poolMidway) <= 2)%nat.
Proof.
  exact (pool_in_flight_bounded sampleEntries 2 [0; 1; 0]%nat poolMidway eq_refl).
Defined.

(** X2 on the complete run of the sample pool: four resumptions. *)
Lemma pool_schedule_sample : (4 <= 2 + 3)%nat.
Proof.
  exact (pool_schedule_bounded sampleEntries 2 [0; 1; 0; 1]%nat samplePool eq_refl).
Defined.


(** ** Transfer executor and item worker: the whole log *)


Lemma filter_isPut_transfer_updates (id : jsstring) (l : list Action) :
  Forall (transferAction id) l ->
  Forall (fun a => isPut a = true) (List.filter isPut l).
Proof.
  intros _. apply List.Forall_forall. intros a Hin.
  apply List.filter_In in Hin. tauto.
Qed.





(** X5. A file of size 0, or one that cannot be streamed, is sent with one
    whole-file PUT and nothing else: progress 100 is reported when the
    store answers with a success status, the error that carries the status
    is thrown when it answers with another one, and the rejection is thrown
    on, without a second attempt, when the request is rejected. *)
Theorem empty_or_unstreamable_file_single_put (file : File.t)
    (signed : UploadSignResponse.t) (id : jsstring) (net : Network)
    (log : list Action) :
  File.size file = 0%N \/ File.stream file = None ->
  uploadFileDirectToGcs file signed (reportProgress id) net log
  = match result (put net (length (List.filter isPut log))) with
    | PutRejects reason => (inl reason, log ++ [Put FileBody])
    | PutResponds status =>
        if ok status
        then (inr tt, log ++ [Put FileBody; Update id (toProgress 100)])
        else (inl (ErrorObject (lit "GCS upload failed with " ++ decimal status)),
              log ++ [Put FileBody])
    end.
Proof.
  intros H. rewrite <- bufferedPut_run. unfold uploadFileDirectToGcs.
  destruct H as [-> | ->]; [reflexivity|].
  destruct (File.size file =? 0)%N; reflexivity.
Qed.

(** X5 on the empty file: one PUT, then progress 100. *)
Lemma empty_file_sample :
  uploadFileDirectToGcs emptyFile sampleSigned (reportProgress (lit "id-2"))
    (network (GrantOk (inr sampleSigned)) [{| pulls := 0; result := PutResponds 200 |}])
    []
  = (inr tt, [Put FileBody; Update (lit "id-2") (toProgress 100)]).
Proof.
  exact (empty_or_unstreamable_file_single_put emptyFile sampleSigned (lit "id-2")
           (network (GrantOk (inr sampleSigned))
              [{| pulls := 0; result := PutResponds 200 |}])
           [] (or_introl eq_refl)).
Defined.

(** ** Messages *)

Lemma trimStart_app_nonblank (l : jsstring) (c : N) :
  isWhiteSpace c = false -> trimStart (l ++ [c]) <> [].
Proof.
  intros Hc. induction l as [|d l IH]; cbn [app trimStart].
  - rewrite Hc. discriminate.
  - destruct (isWhiteSpace d); [exact IH|discriminate].
Qed.

Lemma trim_nonblank (c : N) (s : jsstring) :
  isWhiteSpace c = false -> trim (c :: s) <> [].
Proof.
  intros Hc. unfold trim. cbn [trimStart]. rewrite Hc. cbn [rev].
  intros H. apply (f_equal (@rev N)) in H. rewrite rev_involutive in H.
  exact (trimStart_app_nonblank (rev s) c Hc H).
Qed.

(** X6. The message [readApiError] returns is never blank, and neither is
    the message of the error a failed transfer throws: an item that fails
    on an answer of the grant endpoint or of the store shows a text. *)
Theorem readApiError_never_blank (response : Response) (code : N) :
  trim (readApiError response) <> []
  /\ trim (messageOf (transferError code)) <> [].
Proof.
  split.
  - assert (Hsyn : trim (lit "Request failed with " ++ decimal (status response)
                         ++ lit " " ++ statusText response) <> []).
    { apply (trim_nonblank 82%N). reflexivity. }
    unfold readApiError. cbv zeta.
    destruct (json response) as [data|]; [|exact Hsyn].
    destruct (getField data (lit "error")) as [e|[[| | |message| |]|]]; try exact Hsyn.
    destruct (trim message) as [|c t] eqn:E; [exact Hsyn|].
    cbn [length Nat.ltb Nat.leb]. rewrite E. discriminate.
  - apply (trim_nonblank 71%N). reflexivity.
Qed.

(** ** Progress across the start of a streamed transfer *)

(** A first chunk of at most 9% of the file is reported as at most 9. *)
Lemma percentOf_first_chunk (value size : N) :
  size <> 0%N -> (size < 2 ^ 53)%N -> (100 * value <= 9 * size)%N ->
  percentOf (fadd 0 (toNumber value)) size <= 9.
Proof.
  intros Hsize Hbig Hsmall.
  assert (HbigZ : Z.of_N size < 2 ^ 53).
  { apply N2Z.inj_lt in Hbig. rewrite N2Z.inj_pow in Hbig. exact Hbig. }
  assert (Hexact : (fadd 0 (toNumber value) == toNumber value)%Q).
  { unfold fadd. transitivity (roundDouble (inject_Z (Z.of_N value))).
    - apply roundDouble_comp. unfold toNumber. lra.
    - apply roundDouble_int. lia. }
  rewrite (percentOf_comp _ _ size Hexact).
  pose proof (toNumber_pos size Hsize) as Hs.
  pose proof (toNumber_nonneg value) as Hv.
  assert (Hq : (toNumber value / toNumber size <= 9 # 100)%Q).
  { apply Qle_shift_div_r; [exact Hs|].
    assert (H : (inject_Z 100 * toNumber value <= inject_Z 9 * toNumber size)%Q).
    { unfold toNumber. rewrite <- !inject_Z_mult, <- Zle_Qle. lia. }
    change (inject_Z 100) with (100 # 1)%Q in H.
    change (inject_Z 9) with (9 # 1)%Q in H. lra. }
  assert (Hq0 : (0 <= toNumber value / toNumber size)%Q).
  { apply Qle_shift_div_l; [exact Hs|]. lra. }
  assert (H1 : (fdiv (toNumber value) (toNumber size) <= roundDouble (9 # 100))%Q)
    by (apply roundDouble_mono; assumption).
  assert (H0 : (0 <= fdiv (toNumber value) (toNumber size))%Q)
    by (apply roundDouble_nonneg; exact Hq0).
  assert (H2 : (fmul (fdiv (toNumber value) (toNumber size)) (inject_Z 100)
                <= roundDouble (roundDouble (9 # 100) * inject_Z 100))%Q).
  { apply roundDouble_mono.
    - apply Qmult_le_0_compat; [exact H0 | discriminate].
    - apply Qmult_le_compat_r; [exact H1 | discriminate]. }
  assert (H3 : Math_round (fmul (fdiv (toNumber value) (toNumber size)) (inject_Z 100))
               <= Math_round (roundDouble (roundDouble (9 # 100) * inject_Z 100))).
  { unfold Math_round. apply Qfloor_resp_le. lra. }
  assert (H9 : Math_round (roundDouble (roundDouble (9 # 100) * inject_Z 100)) = 9)
    by (vm_compute; reflexivity).
  unfold percentOf. lia.
Qed.

(** X7. The progress of an item can go down: the update that marks it
    uploading raises its progress to at least 10, and when the first chunk
    the runtime pulls is at most 9% of a streamed file, the next update of
    the invocation sets a progress between 1 and 9. *)
Theorem first_chunk_lowers_progress (authStubHeader : jsstring)
    (item : UploadItem.t) (net : Network) (signed : UploadSignResponse.t)
    (value : N) (chunks : list N) :
  let id := UploadItem.id item in
  let file := UploadItem.file item in
  File.stream file = Some (value :: chunks) ->
  File.size file <> 0%N ->
  (File.size file < 2 ^ 53)%N ->
  (100 * value <= 9 * File.size file)%N ->
  grant net 0 = GrantOk (inr signed) ->
  (1 <= pulls (put net 0))%nat ->
  exists progress rest,
    snd (uploadSingle authStubHeader item net [])
    = [Update id toSigning;
       PostSign (File.name file) (orElse (File.type file) DEFAULT_CONTENT_TYPE)
         authStubHeader;
       Update id (toUploading signed);
       Put StreamBody;
       Update id (toProgress progress)] ++ rest
    /\ 1 <= progress <= 9
    /\ forall current,
         UploadItem.progress (toProgress progress (toUploading signed current))
         < UploadItem.progress (toUploading signed current).
Proof.
  intros id file Hstream Hsize Hbig Hsmall Hgrant Hpulls.
  exists (percentOf (fadd 0 (toNumber value)) (File.size file)).
  pose proof (percentOf_first_chunk value (File.size file) Hsize Hbig Hsmall) as H9.
  pose proof (percentOf_bounds (fadd 0 (toNumber value)) (File.size file)) as H1.
  rewrite uploadSingle_run, uploadSingle_try_run, requestSignedUrl_run.
  fold id file. cbn [app List.filter isPostSign length]. rewrite Hgrant.
  rewrite (uploadFileDirectToGcs_streamed file signed id net _ (value :: chunks)
             Hstream Hsize).
  cbv zeta. cbn [app List.filter isPut length].
  destruct (pulls (put net 0)) as [|count]; [lia|].
  unfold streamedActions. cbn [take countedBytes List.map app].
  set (later := List.map _ (countedBytes _ (take count chunks))).
  assert (Hdown : forall current,
            UploadItem.progress
              (toProgress (percentOf (fadd 0 (toNumber value)) (File.size file))
                 (toUploading signed current))
            < UploadItem.progress (toUploading signed current))
    by (intros current; cbn; lia).
  destruct (result (put net 0)) as [reason|status].
  - rewrite bufferedPut_run.
    destruct (result (put net _)) as [r|st]; [|destruct (ok st)];
      cbn [snd app]; eexists; (split; [reflexivity|]); (split; [lia|exact Hdown]).
  - destruct (ok status);
      cbn [snd app]; eexists; (split; [reflexivity|]); (split; [lia|exact Hdown]).
Qed.

(** X7 on the file of 100 bytes: from 10 down to 5. *)
Lemma first_chunk_sample :
  exists progress rest,
    snd (uploadSingle DEFAULT_AUTH_STUB_HEADER (newItem addedVideo) storing [])
    = [Update (lit "id-3") toSigning;
       PostSign (lit "clip.mp4") (lit "video/mp4") DEFAULT_AUTH_STUB_HEADER;
       Update (lit "id-3") (toUploading sampleSigned);
       Put StreamBody;
       Update (lit "id-3") (toProgress progress)] ++ rest
    /\ 1 <= progress <= 9
    /\ forall current,
         UploadItem.progress (toProgress progress (toUploading sampleSigned current))
         < UploadItem.progress (toUploading sampleSigned current).
Proof.
  apply (first_chunk_lowers_progress DEFAULT_AUTH_STUB_HEADER (newItem addedVideo)
           storing sampleSigned 5%N [95%N]).
  - reflexivity.
  - discriminate.
  - reflexivity.
  - vm_compute. discriminate.
  - reflexivity.
  - cbn. lia.
Defined.

(** ** The life of an item, in every reachable state *)




















Lemma finished_filter (item : UploadItem.t) :
  negb (bool_decide (UploadItem.status item = success))
  && negb (bool_decide (UploadItem.status item = error))
  = negb (isFinished item).
Proof. unfold isFinished. destruct (UploadItem.status item); reflexivity. Qed.

Section HookMore.
Variable authStubHeader : jsstring.




End HookMore.

Section HookReach.
Variable authStubHeader : jsstring.






End HookReach.










(** ** Removing and clearing *)

Lemma filter_all (f : UploadItem.t -> bool) (l : list UploadItem.t) :
  Forall (fun x => f x = true) l -> List.filter f l = l.
Proof.
  induction 1 as [|x l Hx _ IH]; [reflexivity|]. cbn. rewrite Hx, IH. reflexivity.
Qed.

Lemma find_absent (id : jsstring) (l : list UploadItem.t) :
  Forall (fun item => UploadItem.id item <> id) l ->
  List.find (fun item => bool_decide (UploadItem.id item = id)) l = None.
Proof.
  induction 1 as [|x l Hx _ IH]; [reflexivity|]. cbn.
  rewrite bool_decide_eq_false_2 by exact Hx. exact IH.
Qed.

Lemma removeItem_unknown (id : jsstring) (s : Store) :
  Forall (fun item => UploadItem.id item <> id) (items s) -> removeItem id s = s.
Proof.
  intros Habsent. unfold removeItem. cbv zeta.
  rewrite (find_absent id _ Habsent), filter_all.
  - destruct s; reflexivity.
  - eapply Forall_impl; [exact Habsent|]. cbn. intros item Hne.
    rewrite bool_decide_eq_false_2 by exact Hne. reflexivity.
Qed.

(** X13. [removeItem] with an identifier that no item of the queue has
    leaves the store as it is: items, preview map and revocations.  So
    removing the same item twice is removing it once: the second call
    revokes nothing. *)
Theorem removeItem_unknown_or_twice (id : jsstring) (s : Store) :
  (Forall (fun item => UploadItem.id item <> id) (items s) -> removeItem id s = s)
  /\ removeItem id (removeItem id s) = removeItem id s.
Proof.
  split; [apply removeItem_unknown|].
  apply removeItem_unknown, removeItem_absent.
Qed.

Lemma clearFinished_nothing (s : Store) :
  clearFinishedDisabled (items s) = true -> clearFinished s = s.
Proof.
  intros Hdis. unfold clearFinishedDisabled in Hdis.
  rewrite forallb_forall in Hdis.
  assert (Hnone : Forall (fun item => isFinished item = false) (items s)).
  { apply List.Forall_forall. intros item Hin. specialize (Hdis item Hin).
    rewrite finished_filter in Hdis. apply negb_true_iff in Hdis. exact Hdis. }
  unfold clearFinished. cbv zeta.
  assert (Hfold : forall acc, fold_left releaseFinished (items s) acc = acc).
  { induction Hnone as [|item rest Hitem _ IH]; intros acc; [reflexivity|].
    cbn [fold_left]. unfold releaseFinished at 2. rewrite Hitem. cbn [andb].
    apply IH. intros x Hx. apply Hdis. right. exact Hx. }
  rewrite Hfold, filter_all.
  - destruct s; reflexivity.
  - apply List.Forall_forall. exact Hdis.
Qed.

Lemma clearFinished_disables (s : Store) :
  clearFinishedDisabled (items (clearFinished s)) = true.
Proof.
  rewrite items_clearFinished. unfold clearFinishedDisabled.
  apply forallb_forall. intros item Hin. apply List.filter_In in Hin. tauto.
Qed.

(** X14. The button "Clear finished" is disabled exactly when
    [clearFinished] would do nothing: with the button disabled the
    operation leaves the store as it is; with the button enabled it removes
    at least one item; and after it the button is disabled, so clearing
    twice is clearing once. *)
Theorem clearFinished_button (s : Store) :
  (clearFinishedDisabled (items s) = true -> clearFinished s = s)
  /\ (clearFinishedDisabled (items s) = false ->
      (length (items (clearFinished s)) < length (items s))%nat)
  /\ clearFinishedDisabled (items (clearFinished s)) = true
  /\ clearFinished (clearFinished s) = clearFinished s.
Proof.
  split; [apply clearFinished_nothing|]. split; [|split].
  - intros Hen. rewrite items_clearFinished. unfold clearFinishedDisabled in Hen.
    induction (items s) as [|item rest IH]; [discriminate|].
    cbn [forallb List.filter] in *.
    pose proof (List.filter_length_le
                  (fun item => negb (bool_decide (UploadItem.status item = success))
                               && negb (bool_decide (UploadItem.status item = error)))
                  rest) as Hle.
    destruct (negb _ && negb _); cbn [andb length] in *; [|lia].
    specialize (IH Hen). lia.
  - apply clearFinished_disables.
  - apply clearFinished_nothing, clearFinished_disables.
Qed.

(** X14 on the sample store: the image is removed, the button is then
    disabled. *)
Lemma clearFinished_button_sample :
  (length (items (clearFinished sampleStore)) < length (items sampleStore))%nat
  /\ clearFinished (clearFinished sampleStore) = clearFinished sampleStore.
Proof.
  destruct (clearFinished_button sampleStore) as (_ & Hen & _ & Hidem).
  split; [apply Hen; reflexivity|exact Hidem].
Defined.

(** X13 on the sample store. *)
Lemma removeItem_sample :
  removeItem (lit "id-9") sampleStore = sampleStore
  /\ removeItem (lit "id-1") (removeItem (lit "id-1") sampleStore)
     = removeItem (lit "id-1") sampleStore.
Proof.
  split.
  - apply (proj1 (removeItem_unknown_or_twice (lit "id-9") sampleStore)).
    repeat constructor; vm_compute; discriminate.
  - exact (proj2 (removeItem_unknown_or_twice (lit "id-1") sampleStore)).
Defined.

(** X15. After [clearFinished] the list derived for the observer is empty:
    the effect that follows notifies the observer with the empty list,
    unless the last signature emitted was already the empty one. *)
Theorem clearFinished_empties_derived_list (s : Store) (r : Reconciler) :
  uploadedFiles (items (clearFinished s)) = []
  /\ notifications (reconcile true (items (clearFinished s)) r)
     = notifications r ++ (if decide (uploadedSignatureRef r = []) then [] else [[]]).
Proof.
  assert (E : uploadedFiles (items (clearFinished s)) = []).
  { rewrite items_clearFinished. unfold uploadedFiles.
    induction (items s) as [|item rest IH]; [reflexivity|].
    cbn [List.filter].
    destruct (negb _ && negb _) eqn:K; [|exact IH].
    cbn [List.filter].
    assert (Hno : isUploaded item = false).
    { unfold isUploaded. destruct (UploadItem.status item); try reflexivity.
      discriminate K. }
    rewrite Hno. exact IH. }
  split; [exact E|]. unfold reconcile. cbn [negb]. rewrite E.
  change (uploadedSignature []) with (@nil N).
  destruct (decide (uploadedSignatureRef r = [])) as [H|H].
  - rewrite bool_decide_eq_true_2 by exact H. rewrite app_nil_r. reflexivity.
  - rewrite bool_decide_eq_false_2 by exact H. reflexivity.
Qed.

(** ** The observer's view *)

Lemma reconcileAll_snoc (renders : list (list UploadItem.t))
    (items : list UploadItem.t) (r : Reconciler) :
  reconcileAll (renders ++ [items]) r = reconcile true items (reconcileAll renders r).
Proof. unfold reconcileAll. rewrite fold_left_app. reflexivity. Qed.

Lemma reconcileAll_last_notified (renders : list (list UploadItem.t)) :
  uploadedSignatureRef (reconcileAll renders initialReconciler)
  = uploadedSignature (List.last (notifications (reconcileAll renders initialReconciler)) []).
Proof.
  induction renders as [|items renders IH] using rev_ind; [reflexivity|].
  rewrite reconcileAll_snoc. unfold reconcile at 1 2. cbn [negb].
  destruct (bool_decide _); [exact IH|].
  cbn [uploadedSignatureRef notifications]. rewrite List.last_last. reflexivity.
Qed.

(** X16. The observer is never behind: after the effects of any sequence
    of renders, the list it was last notified with (the empty list, if it
    was never notified) has the signature of the list derived from the
    last render, and this is the signature the hook remembers. *)
Theorem observer_never_stale (renders : list (list UploadItem.t)) :
  renders <> [] ->
  let r := reconcileAll renders initialReconciler in
  uploadedSignature (List.last (notifications r) [])
  = uploadedSignature (uploadedFiles (List.last renders []))
  /\ uploadedSignatureRef r = uploadedSignature (uploadedFiles (List.last renders [])).
Proof.
  intros Hne r.
  assert (Href : uploadedSignatureRef r
                 = uploadedSignature (uploadedFiles (List.last renders []))).
  { unfold r. destruct renders as [|x l] using rev_ind; [contradiction|].
    rewrite reconcileAll_snoc, reconcile_ref, List.last_last. reflexivity. }
  split; [|exact Href]. rewrite <- Href. symmetry. apply reconcileAll_last_notified.
Qed.

(** X16 on the sample queue and its progress update. *)
Lemma observer_sample :
  let renders := [sampleQueue; updateItem (lit "id-2") (toProgress 41) sampleQueue] in
  let r := reconcileAll renders initialReconciler in
  uploadedSignature (List.last (notifications r) [])
  = uploadedSignature (uploadedFiles (List.last renders []))
  /\ uploadedSignatureRef r = uploadedSignature (uploadedFiles (List.last renders [])).
Proof.
  intros renders. apply (observer_never_stale renders). discriminate.
Defined.






(** ** The grant endpoint *)

Lemma trimStart_head (s : jsstring) (c : N) (t : jsstring) :
  trimStart s = c :: t -> isWhiteSpace c = false.
Proof.
  induction s as [|d s IH]; cbn [trimStart]; [discriminate|].
  destruct (isWhiteSpace d) eqn:E; [exact IH|].
  intros H. injection H as <- _. exact E.
Qed.

Lemma trimStart_fixed (s : jsstring) :
  (forall c t, s = c :: t -> isWhiteSpace c = false) -> trimStart s = s.
Proof.
  destruct s as [|c t]; [reflexivity|]. intros H. cbn [trimStart].
  rewrite (H c t eq_refl). reflexivity.
Qed.

Lemma trimStart_idempotent (s : jsstring) : trimStart (trimStart s) = trimStart s.
Proof.
  apply trimStart_fixed. intros c t E. exact (trimStart_head s c t E).
Qed.

Lemma trimStart_suffix (s : jsstring) : exists ws, s = ws ++ trimStart s.
Proof.
  induction s as [|c s [ws IH]]; [exists []; reflexivity|]. cbn [trimStart].
  destruct (isWhiteSpace c); [|exists []; reflexivity].
  exists (c :: ws). cbn. f_equal. exact IH.
Qed.

Lemma trim_idempotent (s : jsstring) : trim (trim s) = trim s.
Proof.
  unfold trim. set (t := trimStart s). set (u := trimStart (rev t)).
  assert (Hfix : trimStart (rev u) = rev u).
  { apply trimStart_fixed. intros c r E.
    destruct (trimStart_suffix (rev t)) as [ws Hws]. fold u in Hws.
    apply (f_equal (@rev N)) in Hws. rewrite rev_involutive, rev_app_distr, E in Hws.
    exact (trimStart_head s c _ Hws). }
  rewrite Hfix, rev_involutive. unfold u. rewrite trimStart_idempotent. reflexivity.
Qed.

Lemma requireUser_returns (request : Request) :
  match requireUser request with
  | inr user =>
      exists raw,
        xUserId request = Some raw
        /\ SessionUser.id user = trim raw
        /\ SessionUser.id user <> []
  | inl _ => True
  end.
Proof.
  unfold requireUser. destruct (xUserId request) as [raw|];
    cbn [fmap option_fmap option_map]; [|exact I].
  destruct (trim raw) as [|c userId] eqn:E; [exact I|].
  exists raw. cbn [SessionUser.id]. repeat split; auto.
Qed.

(** X18. [requireUser] returns the identifier of the header [x-user-id]
    with the white space around it removed, and this is never empty; when
    the header is missing or blank it throws the [AuthError] "Missing
    authentication context" with status 401. *)
Theorem requireUser_trims_or_refuses (request : Request) :
  match requireUser request with
  | inr user =>
      exists raw,
        xUserId request = Some raw
        /\ SessionUser.id user = trim raw
        /\ SessionUser.id user <> []
        /\ trim (SessionUser.id user) = SessionUser.id user
  | inl e =>
      e = AuthError (lit "Missing authentication context") 401
      /\ (xUserId request = None
          \/ exists raw, xUserId request = Some raw /\ trim raw = [])
  end.
Proof.
  unfold requireUser. destruct (xUserId request) as [raw|]; cbn [fmap option_fmap option_map].
  - destruct (trim raw) as [|c userId] eqn:E.
    + split; [reflexivity|]. right. exists raw. auto.
    + exists raw. cbn [SessionUser.id]. split; [reflexivity|]. split; [auto|].
      split; [discriminate|]. rewrite <- E. apply trim_idempotent.
  - split; [reflexivity|]. left. reflexivity.
Qed.

Lemma requireUser_refuses (request : Request) :
  (xUserId request = None \/ exists raw, xUserId request = Some raw /\ trim raw = []) ->
  requireUser request = inl (AuthError (lit "Missing authentication context") 401).
Proof.
  unfold requireUser. intros [-> | (raw & -> & E)]; [reflexivity|].
  cbn [fmap option_fmap option_map]. rewrite E. reflexivity.
Qed.

(** X19. A request without the header [x-user-id], or with a blank one, is
    answered with status 401 and the error "Missing authentication
    context", whatever its body and whatever the state of the server; the
    body is not read and the server's caches stay as they are. *)
Theorem POST_unauthenticated (pf : Platform) (request : Request) (st : ServerState) :
  (xUserId request = None \/ exists raw, xUserId request = Some raw /\ trim raw = []) ->
  POST pf request st
  = ({| responseStatus := 401;
        responseBody :=
          JObject [(lit "error", JString (lit "Missing authentication context"))] |},
     st).
Proof.
  intros H. unfold POST, POST_try. rewrite (requireUser_refuses request H). reflexivity.
Qed.

Lemma requireUser_message (request : Request) (message : jsstring) (statusCode : N) :
  requireUser request = inl (AuthError message statusCode) ->
  message = lit "Missing authentication context" /\ statusCode = 401%N.
Proof.
  unfold requireUser.
  destruct (trim <$> xUserId request) as [[|c u]|]; intros H; try discriminate H;
    injection H as <- <-; auto.
Qed.

Lemma requireUser_throws (request : Request) (e : ServerThrown) :
  requireUser request = inl e ->
  e = AuthError (lit "Missing authentication context") 401.
Proof.
  unfold requireUser.
  destruct (trim <$> xUserId request) as [[|c u]|]; intros H; try discriminate H;
    injection H as <-; reflexivity.
Qed.

Lemma signRequestSchema_throws (json : Json) (e : ServerThrown) :
  signRequestSchema json = inl e -> exists issues, e = ZodError issues.
Proof.
  unfold signRequestSchema. destruct json; try (intros H; injection H as <-; eauto).
  cbv zeta. destruct (zString _ _ _), (zString _ _ _); intros H;
    try discriminate H; injection H as <-; eauto.
Qed.

Lemma envSchema_throws (env : ProcessEnv.t) (e : ServerThrown) :
  envSchema env = inl e -> exists issues, e = ZodError issues.
Proof.
  unfold envSchema. cbv zeta.
  destruct (zString _ _ _), (zString _ _ _), (zString _ _ _); intros H;
    try discriminate H; injection H as <-; eauto.
Qed.

Lemma getServerEnv_throws (env : ProcessEnv.t) (cache : option ServerEnv.t)
    (e : ServerThrown) (cache' : option ServerEnv.t) :
  getServerEnv env cache = (inl e, cache') -> exists issues, e = ZodError issues.
Proof.
  unfold getServerEnv. destruct cache; [discriminate|].
  destruct (envSchema env) as [e'|parsed] eqn:E; [|discriminate].
  intros H. injection H as <- _. exact (envSchema_throws env e' E).
Qed.

Lemma serviceAccountSchema_throws (check : jsstring -> bool) (json : Json)
    (e : ServerThrown) :
  serviceAccountSchema check json = inl e -> exists issues, e = ZodError issues.
Proof.
  unfold serviceAccountSchema. destruct json; try (intros H; injection H as <-; eauto).
  cbv zeta.
  destruct (match property _ _ with Some (JString s) => _ | _ => None end),
    (zString _ _ _); intros H; try discriminate H; injection H as <-; eauto.
Qed.

(** No [AuthError] comes out of [createSignedUploadUrl]. *)
Lemma createSignedUploadUrl_throws (pf : Platform) (userId fileName contentType : jsstring)
    (st st' : ServerState) (e : ServerThrown) :
  createSignedUploadUrl pf userId fileName contentType st = (inl e, st') ->
  forall message statusCode, e <> AuthError message statusCode.
Proof.
  unfold createSignedUploadUrl.
  destruct (getServerEnv _ _) as [[e0|env] cache'] eqn:Henv.
  - intros H. injection H as <- _.
    destruct (getServerEnv_throws _ _ _ _ Henv) as [issues ->]. discriminate.
  - unfold getStorageClient. cbn [storageClient cache].
    assert (Hsdk : forall storage st1,
               match getSignedUrl pf storage (ServerEnv.GCS_BUCKET_NAME env)
                       (buildObjectName (toISOString pf (timeOfName pf)) (randomBytes pf)
                          userId fileName)
                       (timeOfGrant pf + 15 * 60 * 1000) contentType with
               | inl e1 => (inl (thrownBy e1), st1)
               | inr uploadUrl =>
                   match buildPublicUrl (ServerEnv.GCS_BUCKET_NAME env)
                           (buildObjectName (toISOString pf (timeOfName pf))
                              (randomBytes pf) userId fileName) with
                   | Some publicUrl =>
                       (inr {| UploadSignResponse.uploadUrl := uploadUrl;
                               UploadSignResponse.headers :=
                                 [(lit "Content-Type", contentType)];
                               UploadSignResponse.objectName :=
                                 buildObjectName (toISOString pf (timeOfName pf))
                                   (randomBytes pf) userId fileName;
                               UploadSignResponse.publicUrl := publicUrl;
                               UploadSignResponse.expiresAt :=
                                 toISOString pf (timeOfGrant pf + 15 * 60 * 1000) |},
                        st1)
                   | None => (inl (OtherError (lit "URI malformed")), st1)
                   end
               end = (inl e, st') ->
               forall message statusCode, e <> AuthError message statusCode).
    { intros storage st1. destruct (getSignedUrl _ _ _ _ _ _) as [[m|m|]|url].
      1-3: intros H; injection H as <- _; discriminate.
      destruct (buildPublicUrl _ _); intros H; [discriminate H|].
      injection H as <- _. discriminate. }
    destruct (storageClient st) as [client|]; [apply Hsdk|].
    destruct (getServerEnv (processEnv pf) cache') as [[e1|env1] cache1] eqn:Henv1.
    + intros H. injection H as <- _.
      destruct (getServerEnv_throws _ _ _ _ Henv1) as [issues ->]. discriminate.
    + destruct (JSON_parse pf _) as [m|parsed]; [intros H; injection H as <- _; discriminate|].
      destruct (serviceAccountSchema _ parsed) as [e2|cred] eqn:Hcred.
      * intros H. injection H as <- _.
        destruct (serviceAccountSchema_throws _ _ _ Hcred) as [issues ->]. discriminate.
      * apply Hsdk.
Qed.

(** X20. Whatever the request and the state of the server, [POST] answers
    with status 200, 400, 401 or 500, and when the status is not 200 the
    message [readApiError] gives the uploader is the [error] text of the
    answer, one of four fixed texts, never the synthesized "Request failed
    with ..." one: "Missing authentication context" with 401, "Invalid
    request payload" or "Invalid JSON request body" with 400, and "Failed
    to generate signed upload URL" with 500. *)
Theorem POST_error_reaches_the_uploader (pf : Platform) (request : Request)
    (st : ServerState) (statusText : jsstring) :
  let answer := fst (POST pf request st) in
  let message := readApiError (received statusText answer) in
  responseStatus answer = 200%N
  \/ (responseStatus answer = 401%N
      /\ message = lit "Missing authentication context")
  \/ (responseStatus answer = 400%N
      /\ (message = lit "Invalid request payload"
          \/ message = lit "Invalid JSON request body"))
  \/ (responseStatus answer = 500%N
      /\ message = lit "Failed to generate signed upload URL").
Proof.
  cbv zeta. unfold POST.
  destruct (POST_try pf request st) as [[e|signed] st'] eqn:Htry; cbn [fst];
    [|left; reflexivity].
  right.
  assert (Hauth : forall message statusCode,
             e = AuthError message statusCode ->
             message = lit "Missing authentication context" /\ statusCode = 401%N).
  { intros message statusCode ->. unfold POST_try in Htry.
    destruct (requireUser request) as [e0|user] eqn:Hu.
    - injection Htry as -> _. exact (requireUser_message request _ _ Hu).
    - destruct (requestJson request) as [m|json]; [discriminate Htry|].
      destruct (signRequestSchema json) as [e1|input] eqn:Hs.
      + injection Htry as -> _.
        destruct (signRequestSchema_throws _ _ Hs) as [issues H]. discriminate H.
      + exfalso.
        exact (createSignedUploadUrl_throws _ _ _ _ _ _ _ Htry message statusCode eq_refl). }
  destruct e as [message statusCode|issues|m|m|].
  - destruct (Hauth message statusCode eq_refl) as [-> ->]. left. split; reflexivity.
  - right. left. split; [reflexivity|]. left. reflexivity.
  - right. left. split; [reflexivity|]. right. reflexivity.
  - right. right. split; reflexivity.
  - right. right. split; reflexivity.
Qed.

(** X19 on a request without the header. *)
Lemma unauthenticated_sample :
  POST noBucket anonymous coldServer
  = ({| responseStatus := 401;
        responseBody :=
          JObject [(lit "error", JString (lit "Missing authentication context"))] |},
     coldServer).
Proof.
  apply (POST_unauthenticated noBucket anonymous coldServer). left. reflexivity.
Defined.

Lemma requireUser_accepts (request : Request) (raw : jsstring) :
  xUserId request = Some raw -> trim raw <> [] ->
  requireUser request = inr {| SessionUser.id := trim raw |}.
Proof.
  intros E H. unfold requireUser. rewrite E. cbn [fmap option_fmap option_map].
  destruct (trim raw); [contradiction|reflexivity].
Qed.

Lemma property_payload (file : File.t) :
  property (payload file) (lit "fileName") = Some (JString (File.name file))
  /\ property (payload file) (lit "contentType")
     = Some (JString (orElse (File.type file) DEFAULT_CONTENT_TYPE)).
Proof. split; reflexivity. Qed.

(** X21. The body the uploader sends passes the schema of the endpoint
    exactly when the name of the file has from 1 to 255 code units and its
    content type at most 255.  An authenticated request for a file with an
    empty name, or with a name or a type of more than 255 code units, is
    answered with status 400, the uploader shows "Invalid request payload",
    and the caches of the server stay as they are. *)
Theorem POST_refuses_long_names (pf : Platform) (request : Request) (st : ServerState)
    (file : File.t) (raw statusText : jsstring) :
  xUserId request = Some raw ->
  trim raw <> [] ->
  requestJson request = inr (payload file) ->
  let contentType := orElse (File.type file) DEFAULT_CONTENT_TYPE in
  ((1 <= length (File.name file) <= 255)%nat /\ (length contentType <= 255)%nat ->
   signRequestSchema (payload file)
   = inr {| UploadSignRequest.fileName := File.name file;
            UploadSignRequest.contentType := contentType |})
  /\ (File.name file = [] \/ (255 < length (File.name file))%nat
      \/ (255 < length contentType)%nat ->
      responseStatus (fst (POST pf request st)) = 400%N
      /\ readApiError (received statusText (fst (POST pf request st)))
         = lit "Invalid request payload"
      /\ snd (POST pf request st) = st).
Proof.
  intros Hraw Hid Hbody contentType.
  destruct (property_payload file) as [Hname Htype]. fold contentType in Htype.
  assert (Hschema : signRequestSchema (payload file)
                    = match zString 1 (Some 255%nat) (Some (JString (File.name file))),
                            zString 1 (Some 255%nat) (Some (JString contentType)) with
                      | Some fileName, Some contentType =>
                          inr {| UploadSignRequest.fileName := fileName;
                                 UploadSignRequest.contentType := contentType |}
                      | fileName, contentType =>
                          inl (ZodError (issueAt (lit "fileName") fileName
                                         ++ issueAt (lit "contentType") contentType))
                      end).
  { unfold signRequestSchema. change (payload file) with (JObject
      [(lit "fileName", JString (File.name file));
       (lit "contentType", JString contentType)]) at 1.
    cbv zeta. rewrite Hname, Htype.
    destruct (zString 1 _ (Some (JString (File.name file)))),
      (zString 1 _ (Some (JString contentType))); reflexivity. }
  split.
  - intros [[Hlo Hhi] Hct]. rewrite Hschema. unfold zString.
    assert (Hne : (1 <= length contentType)%nat).
    { unfold contentType, orElse. destruct (File.type file); cbn; lia. }
    rewrite !(proj2 (Nat.leb_le _ _)) by assumption. reflexivity.
  - intros Hbad.
    assert (Hissues : exists issues, signRequestSchema (payload file) = inl (ZodError issues)).
    { rewrite Hschema. unfold zString.
      destruct Hbad as [Hempty|[Hlong|Hlong]].
      - rewrite Hempty. cbn [length Nat.leb andb].
        destruct (_ && _); eauto.
      - rewrite (proj2 (Nat.leb_gt _ _) Hlong), andb_false_r.
        destruct (_ && _); eauto.
      - rewrite (proj2 (Nat.leb_gt _ _) Hlong), andb_false_r.
        destruct (_ && _); eauto. }
    destruct Hissues as [issues Hissues].
    unfold POST, POST_try.
    rewrite (requireUser_accepts request raw Hraw Hid), Hbody, Hissues.
    cbn [fst snd]. repeat split.
Qed.

(** X21 on a file whose name has 256 code units. *)
Lemma long_name_sample :
  responseStatus (fst (POST noBucket (mkRequest (Some DEFAULT_AUTH_STUB_HEADER)
                                        (inr (payload longNamed))) coldServer))
  = 400%N
  /\ readApiError
       (received (lit "Bad Request")
          (fst (POST noBucket (mkRequest (Some DEFAULT_AUTH_STUB_HEADER)
                                 (inr (payload longNamed))) coldServer)))
     = lit "Invalid request payload"
  /\ snd (POST noBucket (mkRequest (Some DEFAULT_AUTH_STUB_HEADER)
                           (inr (payload longNamed))) coldServer)
     = coldServer.
Proof.
  apply (POST_refuses_long_names noBucket
           (mkRequest (Some DEFAULT_AUTH_STUB_HEADER) (inr (payload longNamed)))
           coldServer longNamed DEFAULT_AUTH_STUB_HEADER (lit "Bad Request")).
  - reflexivity.
  - vm_compute. discriminate.
  - reflexivity.
  - right. left. vm_compute. lia.
Defined.

(** X22. While the environment of the server is incomplete (a variable is
    missing or too short), a request that is authenticated and well formed
    is answered with status 400 and the error "Invalid request payload",
    the text the uploader then shows; nothing is cached, so the next
    request validates the environment again. *)
Theorem POST_incomplete_environment (pf : Platform) (request : Request)
    (st : ServerState) (raw statusText : jsstring) (json : Json)
    (input : UploadSignRequest.t) (e : ServerThrown) :
  xUserId request = Some raw ->
  trim raw <> [] ->
  requestJson request = inr json ->
  signRequestSchema json = inr input ->
  cache st = None ->
  envSchema (processEnv pf) = inl e ->
  responseStatus (fst (POST pf request st)) = 400%N
  /\ readApiError (received statusText (fst (POST pf request st)))
     = lit "Invalid request payload"
  /\ snd (POST pf request st) = st.
Proof.
  intros Hraw Hid Hbody Hschema Hcache Henv.
  destruct (envSchema_throws _ _ Henv) as [issues ->].
  unfold POST, POST_try.
  rewrite (requireUser_accepts request raw Hraw Hid), Hbody, Hschema.
  unfold createSignedUploadUrl, getServerEnv. rewrite Hcache, Henv.
  cbn [fst snd]. repeat split. destruct st as [c s]. cbn in Hcache. subst c. reflexivity.
Qed.

(** X22 for the demo user on a server without bucket name. *)
Lemma incomplete_environment_sample :
  responseStatus (fst (POST noBucket demoRequest coldServer)) = 400%N
  /\ readApiError (received (lit "Bad Request") (fst (POST noBucket demoRequest coldServer)))
     = lit "Invalid request payload"
  /\ snd (POST noBucket demoRequest coldServer) = coldServer.
Proof.
  apply (POST_incomplete_environment noBucket demoRequest coldServer
           DEFAULT_AUTH_STUB_HEADER (lit "Bad Request") (payload samplePng)
           {| UploadSignRequest.fileName := lit "a.png";
              UploadSignRequest.contentType := lit "image/png" |}
           (ZodError [[lit "GCS_BUCKET_NAME"]])).
  - reflexivity.
  - vm_compute. discriminate.
  - reflexivity.
  - reflexivity.
  - reflexivity.
  - reflexivity.
Defined.

(** ** Object names *)

Lemma below_128 (P : N -> bool) :
  forallb P (List.map N.of_nat (seq 0 128)) = true ->
  forall c, (c < 128)%N -> P c = true.
Proof.
  intros H c Hc. rewrite forallb_forall in H. apply H.
  apply List.in_map_iff. exists (N.to_nat c). split; [lia|].
  apply List.in_seq. lia.
Qed.

Lemma isSafeCharacter_ascii (c : N) : isSafeCharacter c = true -> (c < 128)%N.
Proof.
  unfold isSafeCharacter.
  rewrite !orb_true_iff, !andb_true_iff, !N.leb_le, !N.eqb_eq. lia.
Qed.

(** A safe character is no white space, no path separator, no colon and no
    full stop turned hyphen: the three replacements leave it alone. *)
Lemma isSafeCharacter_plain (c : N) :
  isSafeCharacter c = true ->
  isWhiteSpace c = false /\ ((c =? 47) || (c =? 92))%N = false
  /\ c <> 58%N /\ c <> 47%N /\ uriUnreserved c = true.
Proof.
  intros Hsafe. pose proof (isSafeCharacter_ascii c Hsafe) as Hc.
  pose proof (below_128
                (fun c => negb (isSafeCharacter c)
                          || (negb (isWhiteSpace c)
                              && negb ((c =? 47) || (c =? 92))%N
                              && negb (c =? 58)%N && negb (c =? 47)%N
                              && uriUnreserved c))
                ltac:(vm_compute; reflexivity) c Hc) as H.
  cbv beta in H. rewrite Hsafe in H. cbn [negb orb] in H.
  rewrite !andb_true_iff, !negb_true_iff in H.
  destruct H as ((((H1 & H2) & H3) & H4) & H5).
  apply N.eqb_neq in H3, H4. auto.
Qed.

Lemma replaceWhiteSpaceRuns_plain (s : jsstring) :
  Forall (fun c => isWhiteSpace c = false) s ->
  replaceWhiteSpaceRuns false s = s.
Proof.
  induction 1 as [|c s Hc _ IH]; [reflexivity|].
  cbn [replaceWhiteSpaceRuns]. rewrite Hc, IH. reflexivity.
Qed.

Lemma sanitizeFileName_safe (fileName : jsstring) :
  Forall (fun c => isSafeCharacter c = true) (sanitizeFileName fileName).
Proof.
  unfold sanitizeFileName. apply Forall_take. apply List.Forall_forall.
  intros c Hin. apply List.filter_In in Hin. tauto.
Qed.

Lemma sanitizeFileName_fixed (s : jsstring) :
  Forall (fun c => isSafeCharacter c = true) s -> (length s <= 120)%nat ->
  sanitizeFileName s = s.
Proof.
  intros Hsafe Hlen. unfold sanitizeFileName.
  assert (E1 : List.map (fun c => if ((c =? 47) || (c =? 92))%N then 45%N else c) s = s).
  { clear Hlen. induction Hsafe as [|c s Hc _ IH]; [reflexivity|].
    cbn [List.map]. rewrite IH.
    destruct (isSafeCharacter_plain c Hc) as (_ & -> & _). reflexivity. }
  assert (E2 : replaceWhiteSpaceRuns false s = s).
  { apply replaceWhiteSpaceRuns_plain. eapply Forall_impl; [exact Hsafe|].
    intros c Hc. exact (proj1 (isSafeCharacter_plain c Hc)). }
  assert (E3 : List.filter isSafeCharacter s = s).
  { clear Hlen E1 E2. induction Hsafe as [|c s Hc _ IH]; [reflexivity|].
    cbn [List.filter]. rewrite Hc, IH. reflexivity. }
  rewrite E1, E2, E3. apply take_ge. exact Hlen.
Qed.

(** X23. [sanitizeFileName] returns at most 120 code units, each a letter
    of the Latin alphabet, a digit, a full stop, an underscore or a
    hyphen; and it leaves such a name as it is, so sanitizing twice is
    sanitizing once. *)
Theorem sanitizeFileName_safe_short_idempotent (fileName : jsstring) :
  Forall (fun c => isSafeCharacter c = true) (sanitizeFileName fileName)
  /\ (length (sanitizeFileName fileName) <= 120)%nat
  /\ sanitizeFileName (sanitizeFileName fileName) = sanitizeFileName fileName.
Proof.
  assert (Hlen : (length (sanitizeFileName fileName) <= 120)%nat).
  { unfold sanitizeFileName. rewrite length_take. lia. }
  split; [apply sanitizeFileName_safe|]. split; [exact Hlen|].
  apply sanitizeFileName_fixed; [apply sanitizeFileName_safe|exact Hlen].
Qed.

Lemma split_plain (sep : N) (s : jsstring) : ~ In sep s -> split sep s = [s].
Proof.
  induction s as [|c s IH]; intros H; [reflexivity|]. cbn [split].
  destruct (N.eqb_spec c sep) as [->|Hne]; [exfalso; apply H; left; reflexivity|].
  rewrite IH; [reflexivity|]. intros Hin. apply H. right. exact Hin.
Qed.

Lemma split_app (sep : N) (p rest : jsstring) :
  ~ In sep p -> split sep (p ++ sep :: rest) = p :: split sep rest.
Proof.
  induction p as [|c p IH]; intros H; cbn [app split].
  - rewrite N.eqb_refl. reflexivity.
  - destruct (N.eqb_spec c sep) as [->|Hne]; [exfalso; apply H; left; reflexivity|].
    rewrite IH; [reflexivity|]. intros Hin. apply H. right. exact Hin.
Qed.

Lemma safeName_facts (fileName : jsstring) :
  let safeName := orElse (sanitizeFileName fileName) (lit "upload.bin") in
  safeName <> [] /\ Forall (fun c => isSafeCharacter c = true) safeName
  /\ (length safeName <= 120)%nat.
Proof.
  cbv zeta. unfold orElse.
  pose proof (sanitizeFileName_safe fileName) as Hsafe.
  assert (Hlen : (length (sanitizeFileName fileName) <= 120)%nat).
  { unfold sanitizeFileName. rewrite length_take. lia. }
  destruct (sanitizeFileName fileName) as [|c s].
  - split; [discriminate|]. split; [|vm_compute; lia].
    apply List.Forall_forall. intros c Hin. vm_compute in Hin.
    repeat (destruct Hin as [<-|Hin]; [reflexivity|]). contradiction.
  - split; [discriminate|]. split; assumption.
Qed.

Lemma timestamp_plain (iso : jsstring) :
  ~ In 58%N (List.map (fun c => if ((c =? 58) || (c =? 46))%N then 45%N else c) iso).
Proof.
  intros Hin. apply List.in_map_iff in Hin as (c & E & _).
  destruct (c =? 58)%N eqn:E1; cbn [orb] in E; [discriminate E|].
  destruct (c =? 46)%N; [discriminate E|]. apply N.eqb_neq in E1. contradiction.
Qed.

Lemma timestamp_slash (iso : jsstring) :
  ~ In 47%N iso ->
  ~ In 47%N (List.map (fun c => if ((c =? 58) || (c =? 46))%N then 45%N else c) iso).
Proof.
  intros H Hin. apply List.in_map_iff in Hin as (c & E & Hc).
  destruct ((c =? 58) || (c =? 46))%N; [discriminate E|]. subst c. contradiction.
Qed.

(** X24. An object name has exactly three path segments when the user
    identifier, the time stamp and the random text hold no slash:
    "uploads", the user identifier, and a last segment that ends with the
    sanitized file name, or with "upload.bin" when nothing of the name is
    left.  Whatever the name of the file is, it adds no segment and the
    part it contributes is not empty. *)
Theorem buildObjectName_three_segments (iso random userId fileName : jsstring) :
  ~ In 47%N userId -> ~ In 47%N iso -> ~ In 47%N random ->
  exists stamp,
    split 47 (buildObjectName iso random userId fileName)
    = [lit "uploads"; userId;
       stamp ++ orElse (sanitizeFileName fileName) (lit "upload.bin")]
    /\ orElse (sanitizeFileName fileName) (lit "upload.bin") <> []
    /\ (length (orElse (sanitizeFileName fileName) (lit "upload.bin")) <= 120)%nat.
Proof.
  intros Hu Hi Hr.
  destruct (safeName_facts fileName) as (Hne & Hsafe & Hlen). cbv zeta in *.
  set (safeName := orElse (sanitizeFileName fileName) (lit "upload.bin")) in *.
  set (timestamp := List.map (fun c => if ((c =? 58) || (c =? 46))%N then 45%N else c) iso).
  exists (timestamp ++ lit "-" ++ random ++ lit "-").
  split; [|split; assumption].
  unfold buildObjectName. cbv zeta. fold safeName timestamp.
  change (lit "uploads/") with (lit "uploads" ++ [47%N]).
  change (lit "/") with [47%N].
  rewrite <- !app_assoc. cbn [app].
  rewrite split_app by (vm_compute; intros H; repeat (destruct H as [H|H]; [discriminate H|]);
                        exact H).
  rewrite split_app by exact Hu.
  rewrite split_plain; [reflexivity|].
  intros Hin. repeat (apply List.in_app_or in Hin as [Hin|Hin]).
  - exact (timestamp_slash iso Hi Hin).
  - vm_compute in Hin. destruct Hin as [H|[]]. discriminate H.
  - exact (Hr Hin).
  - vm_compute in Hin. destruct Hin as [H|[]]. discriminate H.
  - rewrite List.Forall_forall in Hsafe.
    destruct (isSafeCharacter_plain 47%N (Hsafe _ Hin)) as (_ & _ & _ & H & _).
    contradiction.
Qed.

(** X25. An object name built for a user identifier and a random text
    without colon holds no colon and is not empty: the colons of the time
    stamp are replaced and the file name contributes none.  It is thus one
    of the names the signature of the derived list tells apart. *)
Theorem buildObjectName_colon_free (iso random userId fileName : jsstring) :
  ~ In 58%N userId -> ~ In 58%N random ->
  colonFree (buildObjectName iso random userId fileName).
Proof.
  intros Hu Hr. split; [unfold buildObjectName; vm_compute; discriminate|].
  destruct (safeName_facts fileName) as (_ & Hsafe & _). cbv zeta in Hsafe.
  unfold buildObjectName. cbv zeta. intros Hin.
  repeat (apply List.in_app_or in Hin as [Hin|Hin]).
  - vm_compute in Hin. repeat (destruct Hin as [H|Hin]; [discriminate H|]). exact Hin.
  - exact (Hu Hin).
  - vm_compute in Hin. destruct Hin as [H|[]]. discriminate H.
  - exact (timestamp_plain iso Hin).
  - vm_compute in Hin. destruct Hin as [H|[]]. discriminate H.
  - exact (Hr Hin).
  - vm_compute in Hin. destruct Hin as [H|[]]. discriminate H.
  - rewrite List.Forall_forall in Hsafe.
    destruct (isSafeCharacter_plain 58%N (Hsafe _ Hin)) as (_ & _ & H & _).
    contradiction.
Qed.

(** X24 for a demo upload. *)
Lemma three_segments_sample :
  exists stamp,
    split 47 (buildObjectName (lit "2026-01-01T00:00:00.000Z") (lit "a1b2c3d4e5f6")
                (lit "demo-user-123") (lit "my file.png"))
    = [lit "uploads"; lit "demo-user-123";
       stamp ++ orElse (sanitizeFileName (lit "my file.png")) (lit "upload.bin")]
    /\ orElse (sanitizeFileName (lit "my file.png")) (lit "upload.bin") <> []
    /\ (length (orElse (sanitizeFileName (lit "my file.png")) (lit "upload.bin")) <= 120)%nat.
Proof.
  apply (buildObjectName_three_segments (lit "2026-01-01T00:00:00.000Z")
           (lit "a1b2c3d4e5f6") (lit "demo-user-123") (lit "my file.png"));
    vm_compute; intros H; repeat (destruct H as [H|H]; [discriminate H|]); exact H.
Defined.

(** X25 for the same upload. *)
Lemma colon_free_sample :
  colonFree (buildObjectName (lit "2026-01-01T00:00:00.000Z") (lit "a1b2c3d4e5f6")
               (lit "demo-user-123") (lit "my file.png")).
Proof.
  apply (buildObjectName_colon_free (lit "2026-01-01T00:00:00.000Z")
           (lit "a1b2c3d4e5f6") (lit "demo-user-123") (lit "my file.png"));
    vm_compute; intros H; repeat (destruct H as [H|H]; [discriminate H|]); exact H.
Defined.

(** ** Public URLs *)

Lemma encodeURIComponent_plain (s : jsstring) :
  Forall (fun c => uriUnreserved c = true) s -> encodeURIComponent s = Some s.
Proof.
  induction 1 as [|c s Hc _ IH]; [reflexivity|].
  cbn [encodeURIComponent]. rewrite Hc, IH. reflexivity.
Qed.

Lemma split_parts (sep : N) (P : N -> Prop) (s : jsstring) :
  Forall P s -> Forall (Forall P) (split sep s).
Proof.
  induction 1 as [|c s Hc _ IH]; [repeat constructor|]. cbn [split].
  destruct (c =? sep)%N; [constructor; [constructor|exact IH]|].
  destruct (split sep s) as [|part parts]; [repeat constructor; exact Hc|].
  apply Forall_cons in IH as [Hpart Hparts].
  constructor; [constructor; assumption|exact Hparts].
Qed.

Lemma split_no_separator (sep : N) (s : jsstring) :
  Forall (fun part => ~ In sep part) (split sep s) /\ split sep s <> [].
Proof.
  induction s as [|c s [IH Hne]]; [split; [repeat constructor; auto|discriminate]|].
  cbn [split]. destruct (N.eqb_spec c sep) as [E|E].
  - split; [|discriminate]. constructor; [auto|exact IH].
  - destruct (split sep s) as [|part parts]; [contradiction|].
    split; [|discriminate]. apply Forall_cons in IH as [Hpart Hparts].
    constructor; [|exact Hparts]. intros [H|H]; [congruence|contradiction].
Qed.

(** Splitting at a separator and joining with it gives the string back. *)
Lemma join_split (sep : N) (s : jsstring) : join [sep] (split sep s) = s.
Proof.
  induction s as [|c s IH]; [reflexivity|]. cbn [split].
  pose proof (proj2 (split_no_separator sep s)) as Hne.
  destruct (N.eqb_spec c sep) as [->|E].
  - destruct (split sep s) as [|part parts]; [contradiction|].
    change (join [sep] ([] :: part :: parts))
      with ([] ++ [sep] ++ join [sep] (part :: parts)).
    rewrite IH. reflexivity.
  - destruct (split sep s) as [|part parts]; [contradiction|].
    destruct parts as [|part' parts].
    + cbn [join] in IH |- *. rewrite IH. reflexivity.
    + change (join [sep] ((c :: part) :: part' :: parts))
        with (c :: (part ++ [sep] ++ join [sep] (part' :: parts))).
      change (join [sep] (part :: part' :: parts))
        with (part ++ [sep] ++ join [sep] (part' :: parts)) in IH.
      rewrite IH. reflexivity.
Qed.

Lemma mapM_fixed (f : jsstring -> option jsstring) (l : list jsstring) :
  Forall (fun x => f x = Some x) l -> mapM f l = Some l.
Proof.
  induction 1 as [|x l Hx _ IH]; [reflexivity|].
  cbn. rewrite Hx. cbn. rewrite IH. reflexivity.
Qed.

(** X26. For an object name made of slashes and of characters that
    [encodeURIComponent] leaves as they are (letters, digits and
    [-_.!~*'()]), the public URL is the address of the store, the bucket
    name and the object name itself, unchanged: splitting the name at the
    slashes, encoding the parts and joining them gives the name back. *)
Theorem buildPublicUrl_plain_name (bucketName objectName : jsstring) :
  Forall (fun c => uriUnreserved c = true \/ c = 47%N) objectName ->
  buildPublicUrl bucketName objectName
  = Some (lit "https://storage.googleapis.com/" ++ bucketName ++ lit "/" ++ objectName).
Proof.
  intros Hplain. unfold buildPublicUrl.
  assert (Hparts : Forall (fun part => encodeURIComponent part = Some part)
                     (split 47 objectName)).
  { pose proof (split_parts 47%N _ objectName Hplain) as Hall.
    pose proof (proj1 (split_no_separator 47%N objectName)) as Hnone.
    rewrite List.Forall_forall in Hall, Hnone. apply List.Forall_forall.
    intros part Hin. apply encodeURIComponent_plain.
    specialize (Hall part Hin). specialize (Hnone part Hin).
    rewrite List.Forall_forall in Hall. apply List.Forall_forall.
    intros c Hc. destruct (Hall c Hc) as [H| ->]; [exact H|contradiction]. }
  rewrite (mapM_fixed _ _ Hparts).
  change (lit "/") with [47%N]. rewrite join_split. reflexivity.
Qed.

(** X26 on the object name of the sample grant. *)
Lemma public_url_sample :
  buildPublicUrl (lit "b") (lit "uploads/u1/x-a.png")
  = Some (lit "https://storage.googleapis.com/b/uploads/u1/x-a.png").
Proof.
  apply (buildPublicUrl_plain_name (lit "b") (lit "uploads/u1/x-a.png")).
  vm_compute.
  repeat (apply List.Forall_cons; [first [left; reflexivity|right; reflexivity]|]).
  constructor.
Defined.

(** ** Grants *)

Lemma createSignedUploadUrl_returns (pf : Platform) (userId fileName contentType : jsstring)
    (st st' : ServerState) (signed : UploadSignResponse.t) :
  createSignedUploadUrl pf userId fileName contentType st = (inr signed, st') ->
  UploadSignResponse.objectName signed
  = buildObjectName (toISOString pf (timeOfName pf)) (randomBytes pf) userId fileName
  /\ UploadSignResponse.headers signed = [(lit "Content-Type", contentType)]
  /\ UploadSignResponse.expiresAt signed = toISOString pf (timeOfGrant pf + 900000)
  /\ exists env,
       cache st' = Some env
       /\ buildPublicUrl (ServerEnv.GCS_BUCKET_NAME env)
            (UploadSignResponse.objectName signed)
          = Some (UploadSignResponse.publicUrl signed).
Proof.
  unfold createSignedUploadUrl.
  destruct (getServerEnv _ _) as [[e0|env] cache'] eqn:Henv; [discriminate|].
  assert (Hcache : cache' = Some env).
  { unfold getServerEnv in Henv. destruct (cache st) as [cached|].
    - injection Henv as <- <-. reflexivity.
    - destruct (envSchema _); [discriminate|]. injection Henv as <- <-. reflexivity. }
  subst cache'.
  destruct (getStorageClient pf _) as [[e1|storage] st1] eqn:Hclient; [discriminate|].
  assert (Hst1 : cache st1 = Some env).
  { unfold getStorageClient in Hclient. cbn [storageClient cache] in Hclient.
    destruct (storageClient st) as [client|].
    - injection Hclient as _ <-. reflexivity.
    - unfold getServerEnv in Hclient.
      destruct (JSON_parse pf _); [discriminate|].
      destruct (serviceAccountSchema _ _); [discriminate|].
      injection Hclient as _ <-. reflexivity. }
  cbv zeta.
  destruct (getSignedUrl _ _ _ _ _ _) as [e2|uploadUrl]; [discriminate|].
  destruct (buildPublicUrl _ _) as [publicUrl|] eqn:Hurl; [|discriminate].
  intros H. injection H as <- <-. cbn.
  repeat split. exists env. split; [exact Hst1|exact Hurl].
Qed.

(** X27. [POST] answers with status 200 only to a request that carries a
    user identifier and a body that passes the schema, and the grant is
    then for an object of this user: the object name is the one
    [buildObjectName] makes from the trimmed identifier and the file name of
    the body, the header to send is the content type of the body, and the
    environment is cached. *)
Theorem POST_grants_only_authenticated (pf : Platform) (request : Request)
    (st : ServerState) :
  responseStatus (fst (POST pf request st)) = 200%N ->
  exists raw json input signed,
    xUserId request = Some raw
    /\ trim raw <> []
    /\ requestJson request = inr json
    /\ signRequestSchema json = inr input
    /\ responseBody (fst (POST pf request st)) = signedJson signed
    /\ UploadSignResponse.objectName signed
       = buildObjectName (toISOString pf (timeOfName pf)) (randomBytes pf)
           (trim raw) (UploadSignRequest.fileName input)
    /\ UploadSignResponse.headers signed
       = [(lit "Content-Type", UploadSignRequest.contentType input)]
    /\ is_Some (cache (snd (POST pf request st))).
Proof.
  unfold POST. destruct (POST_try pf request st) as [[e|signed] st'] eqn:Htry;
    cbn [fst snd responseStatus responseBody].
  - intros Hstatus. exfalso. unfold POST_try in Htry.
    destruct (requireUser request) as [e0|user] eqn:Hu.
    + injection Htry as <- _. rewrite (requireUser_throws request e0 Hu) in Hstatus.
      discriminate Hstatus.
    + destruct (requestJson request) as [m|json].
      * injection Htry as <- _. discriminate Hstatus.
      * destruct (signRequestSchema json) as [e1|input] eqn:Hs.
        -- injection Htry as <- _.
           destruct (signRequestSchema_throws _ _ Hs) as [issues ->]. discriminate Hstatus.
        -- pose proof (createSignedUploadUrl_throws _ _ _ _ _ _ _ Htry) as Hno.
           destruct e as [m c|issues|m|m|]; try discriminate Hstatus.
           exact (Hno m c eq_refl).
  - intros _. unfold POST_try in Htry.
    pose proof (requireUser_returns request) as Haux.
    destruct (requireUser request) as [e0|user] eqn:Hu; [discriminate Htry|].
    destruct Haux as (raw & Hraw & Hid & Hne).
    destruct (requestJson request) as [m|json]; [discriminate Htry|].
    destruct (signRequestSchema json) as [e1|input] eqn:Hs; [discriminate Htry|].
    destruct (createSignedUploadUrl_returns _ _ _ _ _ _ _ Htry)
      as (Hname & Hheaders & _ & env & Hcache & _).
    exists raw, json, input, signed. rewrite <- Hid.
    repeat split; auto.
Qed.

(** X27 for the demo user on a server that grants. *)
Lemma grant_sample :
  exists raw json input signed,
    xUserId demoRequest = Some raw
    /\ trim raw <> []
    /\ requestJson demoRequest = inr json
    /\ signRequestSchema json = inr input
    /\ responseBody (fst (POST granting demoRequest coldServer)) = signedJson signed
    /\ UploadSignResponse.objectName signed
       = buildObjectName (toISOString granting (timeOfName granting))
           (randomBytes granting) (trim raw) (UploadSignRequest.fileName input)
    /\ UploadSignResponse.headers signed
       = [(lit "Content-Type", UploadSignRequest.contentType input)]
    /\ is_Some (cache (snd (POST granting demoRequest coldServer))).
Proof.
  apply (POST_grants_only_authenticated granting demoRequest coldServer).
  vm_compute. reflexivity.
Defined.

(** ** The uploader against the endpoint *)

(** X28. When the request of an invocation reaches the endpoint without a
    user identifier, or with a blank one, and the answer of the endpoint
    reaches the uploader, the invocation ends after the grant request: it
    sends no PUT, and it sets the error of the item to "Missing
    authentication context". *)
Theorem unauthenticated_upload_fails (authStubHeader : jsstring) (item : UploadItem.t)
    (net : Network) (pf : Platform) (request : Request) (st : ServerState)
    (statusText : jsstring) :
  (xUserId request = None \/ exists raw, xUserId request = Some raw /\ trim raw = []) ->
  grant net 0 = GrantNotOk (received statusText (fst (POST pf request st))) ->
  uploadSingle authStubHeader item net []
  = (inr tt,
     [Update (UploadItem.id item) toSigning;
      PostSign (File.name (UploadItem.file item))
        (orElse (File.type (UploadItem.file item)) DEFAULT_CONTENT_TYPE)
        authStubHeader;
      Update (UploadItem.id item)
        (toError (lit "Missing authentication context"))]).
Proof.
  intros Hblank Hgrant.
  rewrite uploadSingle_run, uploadSingle_try_run, requestSignedUrl_run.
  cbn [app List.filter isPostSign length]. rewrite Hgrant.
  unfold POST, POST_try. rewrite (requireUser_refuses request Hblank). reflexivity.
Qed.

(** X28 for the image of the samples. *)
Lemma unauthenticated_upload_sample :
  uploadSingle (lit " ") (newItem addedPng) refusing []
  = (inr tt,
     [Update (lit "id-1") toSigning;
      PostSign (lit "a.png") (lit "image/png") (lit " ");
      Update (lit "id-1") (toError (lit "Missing authentication context"))]).
Proof.
  apply (unauthenticated_upload_fails (lit " ") (newItem addedPng) refusing noBucket
           anonymous coldServer (lit "Unauthorized")).
  - left. reflexivity.
  - reflexivity.
Defined.
